(** * JumpTiger: the encrypted SOCKS5 tunnel

    A shallow embedding of the cipher session ([Encryptor], local3.py and
    server3.py), the SOCKS5 front-end and the relay loop of the client
    (local3.py), the relay loop of the server (server3.py) and the accounting
    sink ([ConnectionStats], monitor.py), with the properties of the design
    document stated and settled against them.

    Bytes are integers ([Z], one per byte, 0..255); a Python [bytes] value is
    a list of them.  Mutable objects are threaded explicitly: a method takes
    the object and returns the updated object next to its result.  An
    exception is a value of [exn]. *)

From Stdlib Require Import ZArith Lia List.
From stdpp Require Import gmap strings list fin_maps.

Local Open Scope Z_scope.

(** ** Bytes, exceptions *)

Abbreviation bytes := (list Z).

Definition is_byte (b : Z) : Prop := 0 <= b < 256.
Definition is_bytes (d : bytes) : Prop := Forall is_byte d.

(** The exceptions the modelled code can raise. *)
Inductive exn : Type :=
| SocketError          (* socket.error / OSError *)
| ValueError           (* Crypto: incorrect IV length *)
| IndexError           (* indexing a too short bytes value *)
| AttributeError       (* method call on None *)
| UnicodeDecodeError
| StructError          (* struct.unpack on a wrong-sized buffer *)
| SendFailed.          (* raise Exception('...') in the relay loop *)

Inductive result (A : Type) : Type :=
| Ok (a : A)
| Raise (e : exn).
Arguments Ok {A} a.
Arguments Raise {A} e.

(** Python slices [d[:n]] and [d[n:]]. *)
Definition slice_to (n : nat) (d : bytes) : bytes := take n d.
Definition slice_from (n : nat) (d : bytes) : bytes := drop n d.

(** ** The table cipher's sort

    [list.sort(key=f)] is a stable sort, and the result of a stable sort is
    determined by the list and the key function.  Insertion sort that takes
    the elements from the right and puts each before the first element whose
    key is not smaller keeps equal keys in their order, so it gives the list
    Python gives. *)

Fixpoint insert_by (f : Z -> Z) (x : Z) (l : list Z) : list Z :=
  match l with
  | [] => [x]
  | y :: l' => if f x <=? f y then x :: y :: l' else y :: insert_by f x l'
  end.

Definition sort_by (f : Z -> Z) (l : list Z) : list Z :=
  foldr (insert_by f) [] l.

(** [bytes(range(256))] *)
Definition range256 : list Z := map Z.of_nat (seq 0 256).

(** [data.translate(table)] *)
Definition translate (table : bytes) (data : bytes) : bytes :=
  map (fun b => nth (Z.to_nat b) table 0) data.

(** [bytes.maketrans(frm, to)]: the identity table overwritten, left to
    right, by [table[frm[i]] = to[i]]. *)
Fixpoint maketrans_fill (frm to : bytes) (table : bytes) : bytes :=
  match frm, to with
  | f :: frm', t :: to' => maketrans_fill frm' to' (<[Z.to_nat f := t]> table)
  | _, _ => table
  end.

Definition maketrans (frm to : bytes) : bytes := maketrans_fill frm to range256.

(** [struct.unpack('<QQ', s)[0]]: the first eight bytes, little endian. *)
Fixpoint le_uint (d : bytes) : Z :=
  match d with
  | [] => 0
  | b :: d' => b + 256 * le_uint d'
  end.

(** [struct.unpack('>H', d)[0]] and [struct.pack('>H', n)]. *)
Definition unpack_be16 (d : bytes) : result Z :=
  match d with
  | [hi; lo] => Ok (hi * 256 + lo)
  | _ => Raise StructError
  end.

Definition pack_be16 (n : Z) : bytes := [n / 256; n mod 256].

(** ** AES-256-CFB as the library provides it

    [AES.new(key, AES.MODE_CFB, iv)] of the Crypto package, with the
    library's default segment size of 8 bits: the cipher object holds the key
    and a 16-byte shift register initialised to the IV; for each byte the
    register is encrypted with the block cipher, the first byte of the result
    is combined by exclusive or with the input byte, and the ciphertext byte is
    shifted into the register.  The object keeps its register between calls.
    The constructor raises [ValueError] unless the IV has 16 bytes.  The key
    handed to it is always a SHA-256 digest, whose length it accepts. *)

Record cfb := { cfb_key : bytes; cfb_reg : bytes }.

(** The block cipher, the hash functions and the UTF-8 codec are those of the
    libraries the program imports (Crypto, hashlib, str/bytes): nothing below
    depends on what they compute. *)
Class Libs := {
  aes_block : bytes -> bytes -> bytes;      (* AES block encryption, key first *)
  sha256 : bytes -> bytes;                  (* hashlib.sha256(m).digest() *)
  md5 : bytes -> bytes;                     (* hashlib.md5(m).digest() *)
  utf8_encode : string -> bytes;            (* s.encode('utf-8') *)
  utf8_decode : bytes -> option string      (* b.decode('utf-8'), None: error *)
}.

Section Cipher.

Context `{L : Libs}.

Definition AES_new (key iv : bytes) : result cfb :=
  if decide (length iv = 16%nat)
  then Ok {| cfb_key := key; cfb_reg := iv |}
  else Raise ValueError.

Definition keystream_byte (c : cfb) : Z :=
  hd 0 (aes_block (cfb_key c) (cfb_reg c)).

Definition shift_in (c : cfb) (b : Z) : cfb :=
  {| cfb_key := cfb_key c; cfb_reg := tail (cfb_reg c) ++ [b] |}.

Fixpoint cfb_encrypt (c : cfb) (data : bytes) : cfb * bytes :=
  match data with
  | [] => (c, [])
  | p :: ps =>
      let o := Z.lxor p (keystream_byte c) in
      let '(c', out) := cfb_encrypt (shift_in c o) ps in
      (c', o :: out)
  end.

Fixpoint cfb_decrypt (c : cfb) (data : bytes) : cfb * bytes :=
  match data with
  | [] => (c, [])
  | x :: xs =>
      let p := Z.lxor x (keystream_byte c) in
      let '(c', out) := cfb_decrypt (shift_in c x) xs in
      (c', p :: out)
  end.

(** ** Encryptor (local3.py and server3.py hold the same class) *)

Definition aes_256_cfb : string := "aes-256-cfb".

Record Encryptor := {
  key : bytes;
  method : string;
  iv : option bytes;
  iv_sent : bool;
  cipher_iv : option cfb;
  decipher : option cfb;
  encrypt_table : option bytes;
  decrypt_table : option bytes
}.

(** [_get_table]: [a] is the low half of the MD5 digest; the table is
    sorted 1023 times, for [i] from 1 to 1023. *)
Definition table_key (a i x : Z) : Z := a mod (x + i) - a mod i.

Definition _get_table (password : string) : bytes :=
  let s := md5 (utf8_encode password) in
  let a := le_uint (take 8 s) in
  fold_left (fun table i => sort_by (table_key a i) table)
            (map Z.of_nat (seq 1 1023)) range256.

(** [__init__]; [rand] is what [get_random_bytes(16)] returns. *)
Definition Encryptor_init (password : string) (meth : string) (rand : bytes)
  : result Encryptor :=
  if String.eqb meth aes_256_cfb then
    let k := sha256 (utf8_encode password) in
    match AES_new k rand with
    | Ok c =>
        Ok {| key := k; method := meth; iv := Some rand; iv_sent := false;
              cipher_iv := Some c; decipher := None;
              encrypt_table := None; decrypt_table := None |}
    | Raise e => Raise e
    end
  else
    let t := _get_table password in
    Ok {| key := utf8_encode password; method := meth; iv := None;
          iv_sent := false; cipher_iv := None; decipher := None;
          encrypt_table := Some t;
          decrypt_table := Some (maketrans t range256) |}.

Definition set_iv_sent (e : Encryptor) : Encryptor :=
  {| key := key e; method := method e; iv := iv e; iv_sent := true;
     cipher_iv := cipher_iv e; decipher := decipher e;
     encrypt_table := encrypt_table e; decrypt_table := decrypt_table e |}.

Definition set_cipher_iv (e : Encryptor) (c : cfb) : Encryptor :=
  {| key := key e; method := method e; iv := iv e; iv_sent := iv_sent e;
     cipher_iv := Some c; decipher := decipher e;
     encrypt_table := encrypt_table e; decrypt_table := decrypt_table e |}.

Definition set_iv (e : Encryptor) (v : bytes) : Encryptor :=
  {| key := key e; method := method e; iv := Some v; iv_sent := iv_sent e;
     cipher_iv := cipher_iv e; decipher := decipher e;
     encrypt_table := encrypt_table e; decrypt_table := decrypt_table e |}.

Definition set_decipher (e : Encryptor) (c : cfb) : Encryptor :=
  {| key := key e; method := method e; iv := iv e; iv_sent := iv_sent e;
     cipher_iv := cipher_iv e; decipher := Some c;
     encrypt_table := encrypt_table e; decrypt_table := decrypt_table e |}.

(** [self.cipher_iv.encrypt(data)] *)
Definition cipher_iv_encrypt (e : Encryptor) (data : bytes)
  : Encryptor * result bytes :=
  match cipher_iv e with
  | Some c => let '(c', out) := cfb_encrypt c data in (set_cipher_iv e c', Ok out)
  | None => (e, Raise AttributeError)
  end.

Definition encrypt (e : Encryptor) (data : bytes) : Encryptor * result bytes :=
  if String.eqb (method e) aes_256_cfb then
    if negb (iv_sent e) then
      let e1 := set_iv_sent e in
      match cipher_iv_encrypt e1 data, iv e with
      | (e2, Ok out), Some v => (e2, Ok (v ++ out))
      | (e2, Ok _), None => (e2, Raise AttributeError)
      | (e2, Raise x), _ => (e2, Raise x)
      end
    else cipher_iv_encrypt e data
  else
    match encrypt_table e with
    | Some t => (e, Ok (translate t data))
    | None => (e, Raise AttributeError)
    end.

Definition decrypt (e : Encryptor) (data : bytes) : Encryptor * result bytes :=
  if String.eqb (method e) aes_256_cfb then
    match decipher e with
    | None =>
        let e1 := set_iv e (slice_to 16 data) in
        match AES_new (key e1) (slice_to 16 data) with
        | Ok c =>
            let '(c', out) := cfb_decrypt c (slice_from 16 data) in
            (set_decipher e1 c', Ok out)
        | Raise x => (e1, Raise x)
        end
    | Some c =>
        let '(c', out) := cfb_decrypt c data in (set_decipher e c', Ok out)
    end
  else
    match decrypt_table e with
    | Some t => (e, Ok (translate t data))
    | None => (e, Raise AttributeError)
    end.

End Cipher.

(** ** The accounting sink (monitor.py, [ConnectionStats])

    Every method runs under [self.lock], so each is one atomic function on
    the object.  [now] is what [time.time()] returns in the call. *)

Inductive status := active | closed.

#[global] Instance status_eq_dec : EqDecision status.
Proof. solve_decision. Defined.

(** One entry of [self.connections]; the ['end_time'] key is absent until
    the connection is closed. *)
Record connection := {
  c_id : string;
  c_host : string;
  c_port : Z;
  c_start_time : Z;
  c_bytes_in : Z;
  c_bytes_out : Z;
  c_status : status;
  c_end_time : option Z
}.

Record stats := {
  total_connections : Z;
  active_connections : Z;
  total_bytes_in : Z;
  total_bytes_out : Z;
  uptime : Z
}.

Record ConnectionStats := {
  start_time : Z;
  connections : gmap string connection;
  cs_stats : stats
}.

Definition reset (now : Z) : ConnectionStats :=
  {| start_time := now;
     connections := ∅;
     cs_stats := {| total_connections := 0; active_connections := 0;
                    total_bytes_in := 0; total_bytes_out := 0; uptime := 0 |} |}.

Definition add_connection (cs : ConnectionStats) (now : Z)
    (client_id host : string) (port : Z) : ConnectionStats :=
  let s := cs_stats cs in
  {| start_time := start_time cs;
     connections :=
       <[client_id := {| c_id := client_id; c_host := host; c_port := port;
                         c_start_time := now; c_bytes_in := 0; c_bytes_out := 0;
                         c_status := active; c_end_time := None |}]>
         (connections cs);
     cs_stats := {| total_connections := total_connections s + 1;
                    active_connections := active_connections s + 1;
                    total_bytes_in := total_bytes_in s;
                    total_bytes_out := total_bytes_out s;
                    uptime := uptime s |} |}.

Definition mark_closed (now : Z) (r : connection) : connection :=
  {| c_id := c_id r; c_host := c_host r; c_port := c_port r;
     c_start_time := c_start_time r; c_bytes_in := c_bytes_in r;
     c_bytes_out := c_bytes_out r; c_status := closed; c_end_time := Some now |}.

Definition close_connection (cs : ConnectionStats) (now : Z)
    (client_id : string) : ConnectionStats :=
  match connections cs !! client_id with
  | Some r =>
      let s := cs_stats cs in
      {| start_time := start_time cs;
         connections := <[client_id := mark_closed now r]> (connections cs);
         cs_stats := {| total_connections := total_connections s;
                        active_connections := active_connections s - 1;
                        total_bytes_in := total_bytes_in s;
                        total_bytes_out := total_bytes_out s;
                        uptime := uptime s |} |}
  | None => cs
  end.

Definition add_traffic (bytes_in bytes_out : Z) (r : connection) : connection :=
  {| c_id := c_id r; c_host := c_host r; c_port := c_port r;
     c_start_time := c_start_time r; c_bytes_in := c_bytes_in r + bytes_in;
     c_bytes_out := c_bytes_out r + bytes_out; c_status := c_status r;
     c_end_time := c_end_time r |}.

Definition update_traffic (cs : ConnectionStats) (client_id : string)
    (bytes_in bytes_out : Z) : ConnectionStats :=
  match connections cs !! client_id with
  | Some r =>
      let s := cs_stats cs in
      {| start_time := start_time cs;
         connections := <[client_id := add_traffic bytes_in bytes_out r]> (connections cs);
         cs_stats := {| total_connections := total_connections s;
                        active_connections := active_connections s;
                        total_bytes_in := total_bytes_in s + bytes_in;
                        total_bytes_out := total_bytes_out s + bytes_out;
                        uptime := uptime s |} |}
  | None => cs
  end.

(** [get_stats]: the snapshot, and the object with its [uptime] refreshed.
    The records come in the map's order, not in insertion order. *)
Definition get_stats (cs : ConnectionStats) (now : Z)
    : ConnectionStats * (stats * list connection) :=
  let s := cs_stats cs in
  let s' := {| total_connections := total_connections s;
               active_connections := active_connections s;
               total_bytes_in := total_bytes_in s;
               total_bytes_out := total_bytes_out s;
               uptime := now - start_time cs |} in
  ({| start_time := start_time cs; connections := connections cs; cs_stats := s' |},
   (s', (map_to_list (connections cs)).*2)).

(** A call on the sink, and a sequence of calls run in order. *)
Inductive sink_call :=
| CallAdd (now : Z) (client_id host : string) (port : Z)
| CallUpdate (client_id : string) (bytes_in bytes_out : Z)
| CallClose (now : Z) (client_id : string)
| CallReset (now : Z).

Definition sink_step (cs : ConnectionStats) (c : sink_call) : ConnectionStats :=
  match c with
  | CallAdd now i h p => add_connection cs now i h p
  | CallUpdate i bin bout => update_traffic cs i bin bout
  | CallClose now i => close_connection cs now i
  | CallReset now => reset now
  end.

Definition sink_run (cs : ConnectionStats) (calls : list sink_call) : ConnectionStats :=
  fold_left sink_step calls cs.

(** The sums and the count the totals are compared with. *)
Definition map_sum (g : connection -> Z) (m : gmap string connection) : Z :=
  map_fold (fun _ r acc => g r + acc) 0 m.

Definition sum_bytes_in (m : gmap string connection) : Z := map_sum c_bytes_in m.

Definition sum_bytes_out (m : gmap string connection) : Z := map_sum c_bytes_out m.

Definition active_flag (r : connection) : Z :=
  if decide (c_status r = active) then 1 else 0.

Definition count_active (m : gmap string connection) : Z := map_sum active_flag m.

Definition sink_consistent (cs : ConnectionStats) : Prop :=
  total_bytes_in (cs_stats cs) = sum_bytes_in (connections cs) /\
  total_bytes_out (cs_stats cs) = sum_bytes_out (connections cs) /\
  active_connections (cs_stats cs) = count_active (connections cs).

(** "close_connection is invoked at most once per previously added id":
    [added] are the ids added since the last reset, [closed_ids] those among
    them that have been closed since. *)
Fixpoint close_once (added closed_ids : gset string) (calls : list sink_call) : bool :=
  match calls with
  | [] => true
  | CallAdd _ i _ _ :: cs => close_once ({[i]} ∪ added) closed_ids cs
  | CallUpdate _ _ _ :: cs => close_once added closed_ids cs
  | CallClose _ i :: cs =>
      if decide (i ∈ added) then
        if decide (i ∈ closed_ids) then false
        else close_once added ({[i]} ∪ closed_ids) cs
      else close_once added closed_ids cs
  | CallReset _ :: cs => close_once ∅ ∅ cs
  end.

(** The same, and in addition no id is added twice between two resets. *)
Fixpoint add_close_once (added closed_ids : gset string) (calls : list sink_call) : bool :=
  match calls with
  | [] => true
  | CallAdd _ i _ _ :: cs =>
      if decide (i ∈ added) then false
      else add_close_once ({[i]} ∪ added) closed_ids cs
  | CallUpdate _ _ _ :: cs => add_close_once added closed_ids cs
  | CallClose _ i :: cs =>
      if decide (i ∈ added) then
        if decide (i ∈ closed_ids) then false
        else add_close_once added ({[i]} ∪ closed_ids) cs
      else add_close_once added closed_ids cs
  | CallReset _ :: cs => add_close_once ∅ ∅ cs
  end.

(** ** Sockets and the environment

    A handler works on two sockets, named as in the source: [Sock] (the
    accepted connection) and [Remote] (the connection the handler dials).
    What the handler does to them is recorded, in order, as a trace of
    events: an event is the call and its argument.  What the calls return is
    scripted by an environment record: a field is consulted only when the
    call it answers is reached.  Logging is left out. *)

Inductive sockname := Sock | Remote.

#[global] Instance sockname_eq_dec : EqDecision sockname.
Proof. solve_decision. Defined.

(** The address a socket connects to or is connected from. *)
Inductive hostaddr :=
| HostName (name : string)
| HostIPv4 (packed : bytes).       (* socket.inet_ntoa(packed) *)

Inductive event :=
| EvRecv (s : sockname) (bufsize : Z)
| EvSend (s : sockname) (d : bytes)
| EvConnect (host : hostaddr) (port : Z)
| EvClose (s : sockname).

Inductive recv_res := RecvData (d : bytes) | RecvErr.
Inductive send_res := SendOk | SendErr.

(** One ready socket of a [select] round: what [recv] returns and, if the
    code gets that far, how the following [send_all] ends. *)
Record leg := { rx : recv_res; tx : send_res }.

(** One [select.select(fdset, [], [])]: it raises, or returns the list [r]
    ([sock in r], [remote in r]). *)
Inductive select_ev :=
| SelectErr
| SelectReady (sock_leg remote_leg : option leg).

(** How a piece of code ends: with a value, with an exception, by [return],
    by [break], or not at all (blocked in a call the script has no answer
    for). *)
Inductive ctl (A : Type) : Type :=
| Val (a : A)
| Exc (e : exn)
| Return
| Break
| Blocked.
Arguments Val {A} a.
Arguments Exc {A} e.
Arguments Return {A}.
Arguments Break {A}.
Arguments Blocked {A}.

Section Handlers.

Context `{L : Libs}.

(** [encryptor] is the attribute [self.encryptor] of the handler object,
    [sink] the module-level [monitor.connection_stats]. *)
Record state := {
  encryptor : option Encryptor;
  sink : ConnectionStats;
  trace : list event
}.

Definition M (A : Type) : Type := state -> ctl A * state.

Definition ret {A} (a : A) : M A := fun s => (Val a, s).
Definition raise {A} (e : exn) : M A := fun s => (Exc e, s).
Definition return_ {A} : M A := fun s => (Return, s).
Definition break {A} : M A := fun s => (Break, s).

Definition bind {A B} (m : M A) (f : A -> M B) : M B :=
  fun s =>
    match m s with
    | (Val a, s') => f a s'
    | (Exc e, s') => (Exc e, s')
    | (Return, s') => (Return, s')
    | (Break, s') => (Break, s')
    | (Blocked, s') => (Blocked, s')
    end.

Notation "'let*' x ':=' m 'in' k" := (bind m (fun x => k))
  (at level 10, x name, m at level 100, k at level 200).
Notation "m >>> k" := (bind m (fun _ => k))
  (at level 90, right associativity).

(** [try: m except socket.error: h] *)
Definition try_socket_error {A} (m : M A) (h : M A) : M A :=
  fun s =>
    match m s with
    | (Exc SocketError, s') => h s'
    | r => r
    end.

(** [try: m finally: fin]; [fin] does not run while [m] is blocked. *)
Definition finally {A} (m : M A) (fin : M unit) : M A :=
  fun s =>
    match m s with
    | (Blocked, s') => (Blocked, s')
    | (r, s') => (r, snd (fin s'))
    end.

Definition record_event (ev : event) (s : state) : state :=
  {| encryptor := encryptor s; sink := sink s; trace := trace s ++ [ev] |}.

Definition set_encryptor (e : Encryptor) (s : state) : state :=
  {| encryptor := Some e; sink := sink s; trace := trace s |}.

Definition set_sink (cs : ConnectionStats) (s : state) : state :=
  {| encryptor := encryptor s; sink := cs; trace := trace s |}.

Definition emit (ev : event) : M unit :=
  fun s => (Val tt, record_event ev s).

Definition len (d : bytes) : Z := Z.of_nat (length d).

(** [s.recv(bufsize)]: at most [bufsize] bytes come back. *)
Definition recv (s : sockname) (bufsize : Z) (r : recv_res) : M bytes :=
  emit (EvRecv s bufsize) >>>
  match r with
  | RecvData d => ret (take (Z.to_nat bufsize) d)
  | RecvErr => raise SocketError
  end.

(** [s.send(d)]; the handlers ignore the count it returns. *)
Definition send (s : sockname) (d : bytes) (r : send_res) : M Z :=
  emit (EvSend s d) >>>
  match r with
  | SendOk => ret (len d)
  | SendErr => raise SocketError
  end.

(** [send_all(s, d)]: the loop around [s.send] ends with everything sent
    and [len(d)] returned, or with the exception of a failing [send]. *)
Definition send_all (s : sockname) (d : bytes) (r : send_res) : M Z :=
  emit (EvSend s d) >>>
  match r with
  | SendOk => ret (len d)
  | SendErr => raise SocketError
  end.

Definition close (s : sockname) : M unit := emit (EvClose s).

(** [socket.socket(...)], [setsockopt] and [remote.connect((host, port))] *)
Definition connect (host : hostaddr) (port : Z) (r : send_res) : M unit :=
  emit (EvConnect host port) >>>
  match r with
  | SendOk => ret tt
  | SendErr => raise SocketError
  end.

(** [d[i]] *)
Definition index (d : bytes) (i : nat) : M Z :=
  match d !! i with
  | Some b => ret b
  | None => raise IndexError
  end.

(** [socket.inet_ntoa(packed)] *)
Definition inet_ntoa (packed : bytes) : M hostaddr :=
  if decide (length packed = 4%nat) then ret (HostIPv4 packed)
  else raise SocketError.

(** [b.decode('utf-8')] *)
Definition decode (b : bytes) : M string :=
  match utf8_decode b with
  | Some s => ret s
  | None => raise UnicodeDecodeError
  end.

Definition unpack_port (d : bytes) : M Z :=
  match unpack_be16 d with
  | Ok p => ret p
  | Raise e => raise e
  end.

(** [self.encryptor = Encryptor(password, method)] *)
Definition init_encryptor (password meth : string) (rand : bytes) : M unit :=
  fun s =>
    match Encryptor_init password meth rand with
    | Ok e => (Val tt, set_encryptor e s)
    | Raise x => (Exc x, s)
    end.

Definition with_encryptor
    (f : Encryptor -> bytes -> Encryptor * result bytes) (data : bytes) : M bytes :=
  fun s =>
    match encryptor s with
    | Some e =>
        let '(e', r) := f e data in
        match r with
        | Ok out => (Val out, set_encryptor e' s)
        | Raise x => (Exc x, set_encryptor e' s)
        end
    | None => (Exc AttributeError, s)
    end.

(** [self.encryptor.encrypt(data)] and [self.encryptor.decrypt(data)] *)
Definition self_encrypt : bytes -> M bytes := with_encryptor encrypt.
Definition self_decrypt : bytes -> M bytes := with_encryptor decrypt.

Definition on_sink (f : ConnectionStats -> ConnectionStats) : M unit :=
  fun s => (Val tt, set_sink (f (sink s)) s).

(** [while True: body], one [select] per round. *)
Fixpoint relay_loop (body : select_ev -> M unit) (rounds : list select_ev) : M unit :=
  match rounds with
  | [] => fun s => (Blocked, s)
  | ev :: rounds' =>
      fun s =>
        match body ev s with
        | (Val _, s') => relay_loop body rounds' s'
        | (Break, s') => (Val tt, s')
        | r => r
        end
  end.

(** What the relay of one connection is told by its environment. *)
Record relay_env := {
  client_id : string;                   (* f"{id(self)}_{time.time()}" *)
  peername : option (string * Z);       (* sock.getpeername(); None: it raises *)
  now : Z;                              (* time.time() in add_connection *)
  rounds : list select_ev
}.

Definition getpeername (r : option (string * Z)) : M (string * Z) :=
  match r with
  | Some hp => ret hp
  | None => raise SocketError
  end.

(** *** local3.py, [SocksProxy.handle_tcp] *)

Definition client_round (cid : string) (ev : select_ev) : M unit :=
  match ev with
  | SelectErr => raise SocketError
  | SelectReady sock_leg remote_leg =>
      match sock_leg with
      | Some l =>
          let* data := recv Sock 4096 (rx l) in
          if len data <=? 0 then break else
          let* encrypted := self_encrypt data in
          let* result := send_all Remote encrypted (tx l) in
          if result <? len data then raise SendFailed else
          on_sink (fun cs => update_traffic cs cid 0 (len encrypted))
      | None => ret tt
      end >>>
      match remote_leg with
      | Some l =>
          let* data := recv Remote 4096 (rx l) in
          if len data <=? 0 then break else
          let* decrypted := self_decrypt data in
          let* result := send_all Sock decrypted (tx l) in
          if result <? len data then raise SendFailed else
          on_sink (fun cs => update_traffic cs cid (len decrypted) 0)
      | None => ret tt
      end
  end.

Definition handle_tcp (env : relay_env) : M unit :=
  finally
    (let* hp := getpeername (peername env) in
     on_sink (fun cs => add_connection cs (now env) (client_id env) hp.1 hp.2) >>>
     relay_loop (client_round (client_id env)) (rounds env))
    (close Sock >>> close Remote).

(** *** server3.py, [Socks5Server.handle_tcp] *)

Definition server_round (cid : string) (ev : select_ev) : M unit :=
  match ev with
  | SelectErr => raise SocketError
  | SelectReady sock_leg remote_leg =>
      match sock_leg with
      | Some l =>
          let* data := recv Sock 4096 (rx l) in
          if len data <=? 0 then break else
          let* decrypted := self_decrypt data in
          let* result := send_all Remote decrypted (tx l) in
          if result <? len data then raise SendFailed else
          on_sink (fun cs => update_traffic cs cid 0 (len decrypted))
      | None => ret tt
      end >>>
      match remote_leg with
      | Some l =>
          let* data := recv Remote 4096 (rx l) in
          if len data <=? 0 then break else
          let* encrypted := self_encrypt data in
          let* result := send_all Sock encrypted (tx l) in
          if result <? len data then raise SendFailed else
          on_sink (fun cs => update_traffic cs cid (len data) 0)
      | None => ret tt
      end
  end.

Definition server_handle_tcp (env : relay_env) : M unit :=
  finally
    (let* hp := getpeername (peername env) in
     on_sink (fun cs => add_connection cs (now env) (client_id env) hp.1 hp.2) >>>
     relay_loop (server_round (client_id env)) (rounds env))
    (close Sock >>> close Remote).

(** *** local3.py, [SocksProxy.handle_connection] *)

(** The attributes of [SocksProxy] that never change after [__init__]. *)
Record config := {
  server_addr : string;
  server_port : Z;
  local_port : Z;
  password : string;
  cfg_method : string;
  timeout : Z
}.

Record conn_env := {
  rand_iv : bytes;              (* get_random_bytes(16) *)
  rx_greeting : recv_res;       (* sock.recv(262) *)
  tx_method : send_res;         (* sock.send(b"\x05\x00") *)
  rx_request : recv_res;        (* sock.recv(4) *)
  rx_addr_ip : recv_res;        (* sock.recv(4) *)
  rx_addr_len : recv_res;       (* sock.recv(1) *)
  rx_addr : recv_res;           (* sock.recv(addr_len) *)
  rx_port : recv_res;           (* sock.recv(2) *)
  tx_reply : send_res;          (* sock.send(reply) *)
  dial : send_res;              (* remote.connect(...) *)
  tx_header : send_res;         (* remote.send(...) *)
  relay : relay_env             (* handle_tcp *)
}.

(** What the request names: the branch taken binds [addr_ip], or
    [addr_len] and [addr]. *)
Inductive target :=
| TargetIPv4 (addr_ip : bytes)
| TargetDomain (addr_len : Z) (addr : string).

(** [b"\x05\x00\x00\x01" + socket.inet_aton('0.0.0.0') + struct.pack(">H", 0)] *)
Definition reply : bytes := [5; 0; 0; 1] ++ [0; 0; 0; 0] ++ pack_be16 0.

Definition read_target (addrtype : Z) (env : conn_env) : M target :=
  if addrtype =? 1 then
    let* addr_ip := recv Sock 4 (rx_addr_ip env) in
    let* addr := inet_ntoa addr_ip in
    ret (TargetIPv4 addr_ip)
  else if addrtype =? 3 then
    let* lenb := recv Sock 1 (rx_addr_len env) in
    let* addr_len := index lenb 0 in
    let* addr := recv Sock addr_len (rx_addr env) in
    let* addr := decode addr in
    ret (TargetDomain addr_len addr)
  else return_.

(** [data_to_send] *)
Definition header (t : target) (addr_port : bytes) : bytes :=
  match t with
  | TargetIPv4 addr_ip => [1] ++ addr_ip
  | TargetDomain addr_len addr => [3] ++ [addr_len] ++ utf8_encode addr
  end ++ addr_port.

(** [remote.send(self.encryptor.encrypt(data_to_send))] *)
Definition send_header (data_to_send : bytes) (r : send_res) : M Z :=
  let* out := self_encrypt data_to_send in
  send Remote out r.

Definition handle_connection (cfg : config) (env : conn_env) : M unit :=
  finally
    (try_socket_error
       (init_encryptor (password cfg) (cfg_method cfg) (rand_iv env) >>>
        recv Sock 262 (rx_greeting env) >>>
        send Sock [5; 0] (tx_method env) >>>
        let* data := recv Sock 4 (rx_request env) in
        let* mode := index data 1 in
        if negb (mode =? 1) then return_ else
        let* addrtype := index data 3 in
        let* t := read_target addrtype env in
        let* addr_port := recv Sock 2 (rx_port env) in
        let* port := unpack_port addr_port in
        send Sock reply (tx_reply env) >>>
        try_socket_error
          (connect (HostName (server_addr cfg)) (server_port cfg) (dial env) >>>
           send_header (header t addr_port) (tx_header env) >>>
           handle_tcp (relay env))
          return_)
       (ret tt))
    (close Sock).

(** *** server3.py, [Socks5Server.handle]

    [KEY] and [METHOD] are the module's globals; [sock.recv] and
    [self.rfile.read] both take what the peer sent. *)

Record server_env := {
  s_rand_iv : bytes;
  s_rx_addrtype : recv_res;     (* sock.recv(1) *)
  s_rx_addr_ip : recv_res;      (* self.rfile.read(4) *)
  s_rx_length : recv_res;       (* sock.recv(1) *)
  s_rx_addr : recv_res;         (* self.rfile.read(length) *)
  s_rx_port : recv_res;         (* self.rfile.read(2) *)
  s_dial : send_res;
  s_relay : relay_env
}.

Definition server_read_addr (addrtype : Z) (env : server_env) : M hostaddr :=
  if addrtype =? 1 then
    let* raw := recv Sock 4 (s_rx_addr_ip env) in
    let* packed := self_decrypt raw in
    inet_ntoa packed
  else if addrtype =? 3 then
    let* raw := recv Sock 1 (s_rx_length env) in
    let* lenb := self_decrypt raw in
    let* length := index lenb 0 in
    let* raw := recv Sock length (s_rx_addr env) in
    let* addr := self_decrypt raw in
    let* addr := decode addr in
    ret (HostName addr)
  else return_.

Definition handle (KEY METHOD : string) (env : server_env) : M unit :=
  try_socket_error
    (init_encryptor KEY METHOD (s_rand_iv env) >>>
     let* data := recv Sock 1 (s_rx_addrtype env) in
     let* plain := self_decrypt data in
     let* addrtype := index plain 0 in
     let* addr := server_read_addr addrtype env in
     let* raw := recv Sock 2 (s_rx_port env) in
     let* port_data := self_decrypt raw in
     let* port := unpack_port port_data in
     try_socket_error
       (connect addr port (s_dial env))
       return_ >>>
     server_handle_tcp (s_relay env))
    (ret tt).

(** How a thread that runs a handler ends. *)
Inductive outcome := Finished | Died (e : exn) | Running.

Definition outcome_of {A} (c : ctl A) : outcome :=
  match c with
  | Val _ | Return | Break => Finished
  | Exc e => Died e
  | Blocked => Running
  end.

Definition initial (cs : ConnectionStats) : state :=
  {| encryptor := None; sink := cs; trace := [] |}.

(** *** Feeding a session chunk by chunk *)

Fixpoint feed (f : Encryptor -> bytes -> Encryptor * result bytes)
    (e : Encryptor) (chunks : list bytes) : Encryptor * result (list bytes) :=
  match chunks with
  | [] => (e, Ok [])
  | d :: chunks' =>
      match f e d with
      | (e', Ok out) =>
          match feed f e' chunks' with
          | (e'', Ok outs) => (e'', Ok (out :: outs))
          | (e'', Raise x) => (e'', Raise x)
          end
      | (e', Raise x) => (e', Raise x)
      end
  end.

Definition encrypt_chunks := feed encrypt.
Definition decrypt_chunks := feed decrypt.

(** *** Two client threads on the one [SocksProxy]

    [SocksProxy.start] runs [self.handle_connection] of the same object in
    a thread per accepted connection, so [self.encryptor] and the sink are
    shared by the threads while each has its own two sockets.  A schedule
    lists, in the order they happen, steps of the threads: the assignment
    of [self.encryptor], the sending of the header, a round of the relay
    loop. *)

Inductive thread_step :=
| StepInit (password meth : string) (rand : bytes)
| StepHeader (data_to_send : bytes) (r : send_res)
| StepRound (cid : string) (ev : select_ev).

Definition step_code (st : thread_step) : M unit :=
  match st with
  | StepInit pw meth rand => init_encryptor pw meth rand
  | StepHeader d r => send_header d r >>> ret tt
  | StepRound cid ev => client_round cid ev
  end.

(** The shared attribute and sink, and each thread's own trace. *)
Record shared := {
  sh_encryptor : option Encryptor;
  sh_sink : ConnectionStats;
  sh_traces : gmap nat (list event)
}.

Definition run_step (sh : shared) (tid : nat) (st : thread_step) : shared :=
  let s := {| encryptor := sh_encryptor sh; sink := sh_sink sh;
              trace := default [] (sh_traces sh !! tid) |} in
  let s' := snd (step_code st s) in
  {| sh_encryptor := encryptor s'; sh_sink := sink s';
     sh_traces := <[tid := trace s']> (sh_traces sh) |}.

Definition run_schedule (sh : shared) (sched : list (nat * thread_step)) : shared :=
  fold_left (fun sh ts => run_step sh ts.1 ts.2) sched sh.

(** The bytes a thread has handed to [send] on a socket, in order. *)
Definition sent_on (s : sockname) (tr : list event) : list bytes :=
  omap (fun ev => match ev with
                  | EvSend s' d => if decide (s' = s) then Some d else None
                  | _ => None
                  end) tr.

End Handlers.

(** ** Predicates of the statements *)

Section Statements.

Context `{L : Libs}.

(** An egress session that has sent its IV, with cipher object [c]. *)
Definition streaming_out (e : Encryptor) (c : cfb) : Prop :=
  method e = aes_256_cfb /\ iv_sent e = true /\ cipher_iv e = Some c.

(** An ingress session that has its decrypter, [c]. *)
Definition streaming_in (e : Encryptor) (c : cfb) : Prop :=
  method e = aes_256_cfb /\ decipher e = Some c.

(** What the call sequence has established so far. *)
Definition tracked (added closed_ids : gset string) (cs : ConnectionStats) : Prop :=
  sink_consistent cs /\
  (forall i, i ∈ added <-> is_Some (connections cs !! i)) /\
  (forall i r, connections cs !! i = Some r -> i ∉ closed_ids -> c_status r = active).

(** The trace only grows, by events that satisfy [φ]. *)
Definition appends (φ : event -> Prop) (s s' : state) : Prop :=
  exists suf, trace s' = trace s ++ suf /\ Forall φ suf.

(** A property [J] of the sink, once true, stays true. *)
Definition sink_keeps (J : ConnectionStats -> Prop) (s s' : state) : Prop :=
  J (sink s) -> J (sink s').

(** The record stored for [cid] is an open one. *)
Definition open_record (cid : string) (cs : ConnectionStats) : Prop :=
  exists r, connections cs !! cid = Some r /\
            c_id r = cid /\ c_status r = active /\ c_end_time r = None.

(** An event on the user's socket. *)
Definition on_sock (ev : event) : Prop :=
  match ev with
  | EvRecv Sock _ | EvSend Sock _ | EvClose Sock => True
  | _ => False
  end.

(** Nothing happens off the user's socket before the success reply has
    been handed to [send] on it. *)
Definition reply_first (tr : list event) : Prop :=
  Forall on_sock tr \/
  exists pre post, tr = pre ++ EvSend Sock reply :: post /\ Forall on_sock pre.

Definition leads (s s' : state) : Prop :=
  exists suf, trace s' = trace s ++ suf /\ reply_first suf.

(** The address part of the request names [t]: four bytes after address
    type 1, or a length byte and a name that decodes after address type 3. *)
Definition names_target (env : conn_env) (atyp : Z) (t : target) : Prop :=
  match t with
  | TargetIPv4 ip =>
      atyp = 1 /\ rx_addr_ip env = RecvData ip /\ length ip = 4%nat
  | TargetDomain n str =>
      atyp = 3 /\
      exists name, rx_addr_len env = RecvData [n] /\ rx_addr env = RecvData name /\
                   (length name <= Z.to_nat n)%nat /\ utf8_decode name = Some str
  end.

(** The user sent a greeting and a CONNECT request for [t] and [port], and
    took the method selection. *)
Definition accepted (env : conn_env) (t : target) (port : Z) : Prop :=
  exists g ver rsv atyp hi lo,
    rx_greeting env = RecvData g /\ tx_method env = SendOk /\
    rx_request env = RecvData [ver; 1; rsv; atyp] /\
    names_target env atyp t /\
    rx_port env = RecvData [hi; lo] /\ is_byte hi /\ is_byte lo /\
    port = hi * 256 + lo.

(** The reads that fetch the address. *)
Definition addr_reads (t : target) : list event :=
  match t with
  | TargetIPv4 _ => [EvRecv Sock 4]
  | TargetDomain n _ => [EvRecv Sock 1; EvRecv Sock n]
  end.


End Statements.

(** A relation [Q] between the state before and the state after, reflexive
    and transitive, that holds across each single effect. *)
Class StepRel (Q : state -> state -> Prop) := {
  ok_event : event -> Prop;
  ok_sink : (ConnectionStats -> ConnectionStats) -> Prop;
  Q_refl : forall s, Q s s;
  Q_trans : forall s1 s2 s3, Q s1 s2 -> Q s2 s3 -> Q s1 s3;
  Q_event : forall ev s, ok_event ev -> Q s (record_event ev s);
  Q_encryptor : forall e s, Q s (set_encryptor e s);
  Q_sink : forall f s, ok_sink f -> Q s (set_sink (f (sink s)) s)
}.

(** [Q] holds across every run of [m]. *)
Definition steps (Q : state -> state -> Prop) {A} (m : M A) : Prop :=
  forall s, Q s (m s).2.

(** ** An instance to evaluate on

    The statements below hold for every [Libs].  To run the definitions on
    concrete inputs an instance is needed: this one has the shapes of the
    library functions (a 16-byte block, a 32-byte and a 16-byte digest, one
    byte per character) and none of their cryptography. *)

Definition sample_block (k b : bytes) : bytes :=
  map (fun x => Z.lxor (Z.lxor x 90) (hd 0 k)) b.

Definition sample_digest (n : nat) (m : bytes) : bytes :=
  take n (map (fun x => (x + 1) mod 256) m ++ repeat 7 n).

Definition sample_encode (s : string) : bytes :=
  map (fun a => Z.of_nat (Ascii.nat_of_ascii a)) (String.list_ascii_of_string s).

Definition sample_decode (b : bytes) : option string :=
  if forallb (fun x => (0 <=? x) && (x <? 128)) b
  then Some (String.string_of_list_ascii
               (map (fun x => Ascii.ascii_of_nat (Z.to_nat x)) b))
  else None.

Definition sample_libs : Libs :=
  {| aes_block := sample_block;
     sha256 := sample_digest 32;
     md5 := sample_digest 16;
     utf8_encode := sample_encode;
     utf8_decode := sample_decode |}.

(** Inputs to evaluate on: two IVs, a configuration, a user who greets and
    sends [request] with address 127.0.0.1 or example.com and port 80, and
    then closes, and a session in both of its streaming states. *)

Definition sample_iv : bytes := map Z.of_nat (seq 0 16).
Definition sample_iv' : bytes := map Z.of_nat (seq 100 16).

Definition sample_cfg : config :=
  {| server_addr := "198.51.100.7"; server_port := 8388; local_port := 1080;
     password := "secret"; cfg_method := aes_256_cfb; timeout := 60 |}.

Definition sample_eof : select_ev :=
  SelectReady (Some {| rx := RecvData []; tx := SendOk |}) None.

Definition sample_relay : relay_env :=
  {| client_id := "140230_1700000000.5"; peername := Some ("127.0.0.1", 50000);
     now := 1700000000; rounds := [sample_eof] |}.

Definition sample_env (request : bytes) : conn_env :=
  {| rand_iv := sample_iv;
     rx_greeting := RecvData [5; 1; 0];
     tx_method := SendOk;
     rx_request := RecvData request;
     rx_addr_ip := RecvData [127; 0; 0; 1];
     rx_addr_len := RecvData [11];
     rx_addr := RecvData [101; 120; 97; 109; 112; 108; 101; 46; 99; 111; 109];
     rx_port := RecvData [0; 80];
     tx_reply := SendOk;
     dial := SendOk;
     tx_header := SendOk;
     relay := sample_relay |}.

(** The same user, with a dial and a header write that end as given. *)
Definition sample_env_failing (request : bytes) (d h : send_res) : conn_env :=
  {| rand_iv := sample_iv;
     rx_greeting := RecvData [5; 1; 0];
     tx_method := SendOk;
     rx_request := RecvData request;
     rx_addr_ip := RecvData [127; 0; 0; 1];
     rx_addr_len := RecvData [11];
     rx_addr := RecvData [101; 120; 97; 109; 112; 108; 101; 46; 99; 111; 109];
     rx_port := RecvData [0; 80];
     tx_reply := SendOk;
     dial := d;
     tx_header := h;
     relay := sample_relay |}.

Definition sample_fresh : Encryptor :=
  {| key := sample_digest 32 (sample_encode "secret"); method := aes_256_cfb;
     iv := Some sample_iv; iv_sent := false;
     cipher_iv := Some {| cfb_key := sample_digest 32 (sample_encode "secret");
                          cfb_reg := sample_iv |};
     decipher := None; encrypt_table := None; decrypt_table := None |}.

Definition sample_streaming : Encryptor :=
  {| key := sample_digest 32 (sample_encode "secret"); method := aes_256_cfb;
     iv := Some sample_iv'; iv_sent := true;
     cipher_iv := Some {| cfb_key := sample_digest 32 (sample_encode "secret");
                          cfb_reg := sample_iv |};
     decipher := Some {| cfb_key := sample_digest 32 (sample_encode "secret");
                         cfb_reg := sample_iv' |};
     encrypt_table := None; decrypt_table := None |}.

(** ** Further definitions

    [send_all] of local3.py and server3.py, call by call: [rets] scripts what
    each [sock.send] returns (the count the kernel took, or an exception).
    The result carries the log of the calls: what was offered, and the count
    returned. *)

Inductive send_ret := Sent (r : Z) | SendRaises.

Fixpoint send_all_loop (data : bytes) (bytes_sent : Z) (rets : list send_ret)
  : ctl Z * list (bytes * Z) :=
  let offered := slice_from (Z.to_nat bytes_sent) data in
  match rets with
  | [] => (Blocked, [])
  | SendRaises :: _ => (Exc SocketError, [])
  | Sent r :: rets' =>
      if r <? 0 then (Val r, [(offered, r)])
      else
        let bytes_sent' := bytes_sent + r in
        if bytes_sent' =? Z.of_nat (length data) then (Val bytes_sent', [(offered, r)])
        else
          let '(res, log) := send_all_loop data bytes_sent' rets' in
          (res, (offered, r) :: log)
  end.

(** The bytes the kernel took in the logged calls. *)
Definition taken (log : list (bytes * Z)) : bytes :=
  concat (map (fun c => take (Z.to_nat c.2) c.1) log).

(** The kernel takes no more than it is offered, and not a negative count. *)
Definition kernel_like (log : list (bytes * Z)) : Prop :=
  Forall (fun c => 0 <= c.2 <= Z.of_nat (length c.1)) log.

(** The number of [add_connection] calls after the last [reset]. *)
Fixpoint count_adds (acc : Z) (calls : list sink_call) : Z :=
  match calls with
  | [] => acc
  | CallAdd _ _ _ _ :: cs => count_adds (acc + 1) cs
  | CallReset _ :: cs => count_adds 0 cs
  | _ :: cs => count_adds acc cs
  end.

(** The relays pass lengths to [update_traffic]: counts that are not
    negative. *)
Definition counts_lengths (c : sink_call) : Prop :=
  match c with
  | CallUpdate _ bytes_in bytes_out => 0 <= bytes_in /\ 0 <= bytes_out
  | _ => True
  end.

(** A stored record is well formed under key [i]. *)
Definition record_wf (i : string) (r : connection) : Prop :=
  c_id r = i /\
  (c_status r = active /\ c_end_time r = None \/
   c_status r = closed /\ is_Some (c_end_time r)).

(** The totals are not below the sums, and no stored count is negative. *)
Definition covers (cs : ConnectionStats) : Prop :=
  sum_bytes_in (connections cs) <= total_bytes_in (cs_stats cs) /\
  sum_bytes_out (connections cs) <= total_bytes_out (cs_stats cs) /\
  map_Forall (fun _ r => 0 <= c_bytes_in r /\ 0 <= c_bytes_out r) (connections cs).

(** Rounds of the relay in which only the user's socket is readable, it
    delivers the given buffers in turn, and every write succeeds. *)
Definition uploads (ds : list bytes) : list select_ev :=
  map (fun d => SelectReady (Some {| rx := RecvData d; tx := SendOk |}) None) ds.

Section ServerStatements.

Context `{L : Libs}.

(** The host the server dials for a target. *)
Definition host_of (t : target) : hostaddr :=
  match t with
  | TargetIPv4 ip => HostIPv4 ip
  | TargetDomain _ name => HostName name
  end.

(** The server's reads return the ciphertext [ct] of a header in the slices
    the handler asks for: the type byte, then four address bytes or a length
    byte and the name, then the two port bytes. *)
Definition reads_header (env : server_env) (t : target) (ct : bytes) : Prop :=
  s_rx_addrtype env = RecvData (take 1 ct) /\
  match t with
  | TargetIPv4 ip =>
      length ip = 4%nat /\
      s_rx_addr_ip env = RecvData (take 4 (drop 1 ct)) /\
      s_rx_port env = RecvData (drop 5 ct)
  | TargetDomain n name =>
      length (utf8_encode name) = Z.to_nat n /\
      utf8_decode (utf8_encode name) = Some name /\
      s_rx_length env = RecvData (take 1 (drop 1 ct)) /\
      s_rx_addr env = RecvData (take (Z.to_nat n) (drop 2 ct)) /\
      s_rx_port env = RecvData (drop (2 + Z.to_nat n) ct)
  end.

(** The reads of the server that fetch the address. *)
Definition server_addr_reads (t : target) : list event :=
  match t with
  | TargetIPv4 _ => [EvRecv Sock 4]
  | TargetDomain n _ => [EvRecv Sock 1; EvRecv Sock n]
  end.

End ServerStatements.

(** Inputs for the server: a table session of the sample password, the
    header for 127.0.0.1:80 as such a session encrypts it, and a peer that
    delivers it in the server's slices. *)

Definition sample_table_session : Encryptor :=
  {| key := sample_encode "secret"; method := "table"; iv := None;
     iv_sent := false; cipher_iv := None; decipher := None;
     encrypt_table := Some (_get_table (L:=sample_libs) "secret");
     decrypt_table := Some (maketrans (_get_table (L:=sample_libs) "secret") range256) |}.

Definition sample_table_ct : bytes :=
  translate (_get_table (L:=sample_libs) "secret") [1; 127; 0; 0; 1; 0; 80].

Definition sample_server_env (first : recv_res) : server_env :=
  {| s_rand_iv := sample_iv';
     s_rx_addrtype := first;
     s_rx_addr_ip := RecvData (take 4 (drop 1 sample_table_ct));
     s_rx_length := RecvErr;
     s_rx_addr := RecvErr;
     s_rx_port := RecvData (drop 5 sample_table_ct);
     s_dial := SendErr;
     s_relay := sample_relay |}.

(** * Properties *)

(** ** The stream cipher *)

Section CipherFacts.

Context `{L : Libs}.

Lemma cfb_encrypt_length c p : length (cfb_encrypt c p).2 = length p.
Proof.
  revert c. induction p as [|x p IH]; intros c; simpl; [done|].
  specialize (IH (shift_in c (Z.lxor x (keystream_byte c)))).
  destruct (cfb_encrypt _ p) as [c' out]. simpl in *. by rewrite IH.
Qed.

Lemma cfb_decrypt_length c p : length (cfb_decrypt c p).2 = length p.
Proof.
  revert c. induction p as [|x p IH]; intros c; simpl; [done|].
  specialize (IH (shift_in c x)).
  destruct (cfb_decrypt _ p) as [c' out]. simpl in *. by rewrite IH.
Qed.

Lemma lxor_cancel (p k : Z) : Z.lxor (Z.lxor p k) k = p.
Proof. by rewrite Z.lxor_assoc, Z.lxor_nilpotent, Z.lxor_0_r. Qed.

(** Decryption from the same register undoes encryption and leaves the
    register where encryption left it. *)
Lemma cfb_decrypt_encrypt c p :
  cfb_decrypt c (cfb_encrypt c p).2 = ((cfb_encrypt c p).1, p).
Proof.
  revert c. induction p as [|x p IH]; intros c; simpl; [done|].
  specialize (IH (shift_in c (Z.lxor x (keystream_byte c)))).
  destruct (cfb_encrypt _ p) as [c' out]. simpl in *.
  rewrite IH. by rewrite lxor_cancel.
Qed.

(** The cipher object is a stream: two calls give what one call on the
    concatenation gives. *)
Lemma cfb_encrypt_app c a b :
  cfb_encrypt c (a ++ b) =
  ((cfb_encrypt (cfb_encrypt c a).1 b).1,
   (cfb_encrypt c a).2 ++ (cfb_encrypt (cfb_encrypt c a).1 b).2).
Proof.
  revert c. induction a as [|x a IH]; intros c; simpl.
  - by destruct (cfb_encrypt c b).
  - rewrite IH.
    destruct (cfb_encrypt (shift_in c (Z.lxor x (keystream_byte c))) a) as [c1 o1].
    simpl. by destruct (cfb_encrypt c1 b).
Qed.

Lemma cfb_decrypt_app c a b :
  cfb_decrypt c (a ++ b) =
  ((cfb_decrypt (cfb_decrypt c a).1 b).1,
   (cfb_decrypt c a).2 ++ (cfb_decrypt (cfb_decrypt c a).1 b).2).
Proof.
  revert c. induction a as [|x a IH]; intros c; simpl.
  - by destruct (cfb_decrypt c b).
  - rewrite IH.
    destruct (cfb_decrypt (shift_in c x) a) as [c1 o1].
    simpl. by destruct (cfb_decrypt c1 b).
Qed.

(** *** Sessions *)

Lemma eqb_aes : String.eqb aes_256_cfb aes_256_cfb = true.
Proof. reflexivity. Qed.

Lemma init_aes pw rand :
  length rand = 16%nat ->
  Encryptor_init pw aes_256_cfb rand =
  Ok {| key := sha256 (utf8_encode pw); method := aes_256_cfb;
        iv := Some rand; iv_sent := false;
        cipher_iv := Some {| cfb_key := sha256 (utf8_encode pw); cfb_reg := rand |};
        decipher := None; encrypt_table := None; decrypt_table := None |}.
Proof.
  intros Hlen. unfold Encryptor_init, AES_new. rewrite eqb_aes.
  by rewrite decide_True.
Qed.

Lemma encrypt_streaming e c data :
  streaming_out e c ->
  encrypt e data = (set_cipher_iv e (cfb_encrypt c data).1,
                    Ok (cfb_encrypt c data).2).
Proof.
  intros (Hm & Hs & Hc). unfold encrypt, cipher_iv_encrypt.
  rewrite Hm, eqb_aes, Hs, Hc. simpl. by destruct (cfb_encrypt c data).
Qed.

Lemma streaming_out_step e c c' :
  streaming_out e c -> streaming_out (set_cipher_iv e c') c'.
Proof. intros (Hm & Hs & Hc). by repeat split. Qed.

Lemma decrypt_streaming e c data :
  streaming_in e c ->
  decrypt e data = (set_decipher e (cfb_decrypt c data).1,
                    Ok (cfb_decrypt c data).2).
Proof.
  intros (Hm & Hc). unfold decrypt.
  rewrite Hm, eqb_aes, Hc. by destruct (cfb_decrypt c data).
Qed.

Lemma streaming_in_step e c c' :
  streaming_in e c -> streaming_in (set_decipher e c') c'.
Proof. intros (Hm & Hc). by repeat split. Qed.

(** The first call on a session without a decrypter: the first 16 bytes
    become the IV. *)
Lemma decrypt_first e data :
  method e = aes_256_cfb -> decipher e = None ->
  (16 <= length data)%nat ->
  let c0 := {| cfb_key := key e; cfb_reg := take 16 data |} in
  decrypt e data =
  (set_decipher (set_iv e (take 16 data)) (cfb_decrypt c0 (drop 16 data)).1,
   Ok (cfb_decrypt c0 (drop 16 data)).2).
Proof.
  intros Hm Hd Hlen c0. unfold decrypt, AES_new, slice_to, slice_from.
  rewrite Hm, eqb_aes, Hd.
  rewrite decide_True by (rewrite length_take; lia).
  simpl. fold c0. by destruct (cfb_decrypt c0 (drop 16 data)).
Qed.

(** The first call with fewer than 16 bytes: the library refuses the IV. *)
Lemma decrypt_short e data :
  method e = aes_256_cfb -> decipher e = None ->
  (length data < 16)%nat ->
  decrypt e data = (set_iv e (take 16 data), Raise ValueError).
Proof.
  intros Hm Hd Hlen. unfold decrypt, AES_new, slice_to.
  rewrite Hm, eqb_aes, Hd.
  rewrite decide_False by (rewrite length_take; lia).
  done.
Qed.

Lemma encrypt_chunks_streaming e c chunks :
  streaming_out e c ->
  exists e' outs,
    encrypt_chunks e chunks = (e', Ok outs) /\
    streaming_out e' (cfb_encrypt c (concat chunks)).1 /\
    concat outs = (cfb_encrypt c (concat chunks)).2 /\
    Forall2 (fun p o => length o = length p) chunks outs.
Proof.
  revert e c. induction chunks as [|d chunks IH]; intros e c He.
  - exists e, []. split_and!; [done | exact He | done | constructor].
  - unfold encrypt_chunks in *. simpl.
    rewrite (encrypt_streaming e c d He).
    destruct (IH _ _ (streaming_out_step e c (cfb_encrypt c d).1 He))
      as (e' & outs & Hrun & Hst & Hcat & Hlen).
    rewrite Hrun. exists e', ((cfb_encrypt c d).2 :: outs).
    rewrite cfb_encrypt_app. simpl. rewrite Hcat.
    split_and!; [done | done | done |].
    constructor; [apply cfb_encrypt_length | done].
Qed.

Lemma decrypt_chunks_streaming e c chunks :
  streaming_in e c ->
  exists e' outs,
    decrypt_chunks e chunks = (e', Ok outs) /\
    streaming_in e' (cfb_decrypt c (concat chunks)).1 /\
    concat outs = (cfb_decrypt c (concat chunks)).2.
Proof.
  revert e c. induction chunks as [|d chunks IH]; intros e c He.
  - exists e, []. split_and!; [done | exact He | done].
  - unfold decrypt_chunks in *. simpl.
    rewrite (decrypt_streaming e c d He).
    destruct (IH _ _ (streaming_in_step e c (cfb_decrypt c d).1 He))
      as (e' & outs & Hrun & Hst & Hcat).
    rewrite Hrun. exists e', ((cfb_decrypt c d).2 :: outs).
    rewrite cfb_decrypt_app. simpl. rewrite Hcat.
    by split_and!.
Qed.

Lemma init_aes_inv pw rand e :
  Encryptor_init pw aes_256_cfb rand = Ok e ->
  length rand = 16%nat /\
  e = {| key := sha256 (utf8_encode pw); method := aes_256_cfb;
         iv := Some rand; iv_sent := false;
         cipher_iv := Some {| cfb_key := sha256 (utf8_encode pw); cfb_reg := rand |};
         decipher := None; encrypt_table := None; decrypt_table := None |}.
Proof.
  intros Hinit. destruct (decide (length rand = 16%nat)) as [Hlen|Hlen].
  - rewrite (init_aes pw rand Hlen) in Hinit. by inversion Hinit.
  - unfold Encryptor_init, AES_new in Hinit. rewrite eqb_aes in Hinit.
    by rewrite decide_False in Hinit.
Qed.

(** The first call of [encrypt] on a new session. *)
Lemma encrypt_fresh pw rand e data :
  Encryptor_init pw aes_256_cfb rand = Ok e ->
  let c0 := {| cfb_key := sha256 (utf8_encode pw); cfb_reg := rand |} in
  exists e1,
    encrypt e data = (e1, Ok (rand ++ (cfb_encrypt c0 data).2)) /\
    streaming_out e1 (cfb_encrypt c0 data).1 /\
    decipher e1 = None /\ key e1 = sha256 (utf8_encode pw) /\
    iv e1 = Some rand.
Proof.
  intros Hinit c0. apply init_aes_inv in Hinit as [_ ->].
  unfold encrypt, cipher_iv_encrypt. simpl. fold c0.
  destruct (cfb_encrypt c0 data) as [c1 out] eqn:E. simpl.
  eexists. split; [reflexivity|]. by split_and!.
Qed.

(** A stream split into chunks by the sender, and split again by the
    transport with at least the IV in the first chunk, decrypts to what was
    encrypted. *)
Lemma roundtrip_chunked pw rand rand' chunks e d e' outs first rest :
  Encryptor_init pw aes_256_cfb rand = Ok e ->
  Encryptor_init pw aes_256_cfb rand' = Ok d ->
  encrypt_chunks e chunks = (e', Ok outs) ->
  concat (first :: rest) = concat outs ->
  (16 <= length first)%nat ->
  exists d' plains,
    decrypt_chunks d (first :: rest) = (d', Ok plains) /\
    concat plains = concat chunks.
Proof.
  intros He Hd Hrun Hwire Hfirst.
  set (c0 := {| cfb_key := sha256 (utf8_encode pw); cfb_reg := rand |}).
  destruct chunks as [|p chunks].
  { inversion Hrun; subst. simpl in Hwire.
    apply (f_equal length) in Hwire. rewrite length_app in Hwire.
    simpl in Hwire. lia. }
  destruct (encrypt_fresh pw rand e p He) as (e1 & Hp & Hst & _ & _).
  fold c0 in Hp, Hst.
  destruct (encrypt_chunks_streaming e1 _ chunks Hst)
    as (e2 & outs' & Hrest & _ & Hcat & _).
  unfold encrypt_chunks in *. simpl in Hrun. rewrite Hp, Hrest in Hrun.
  inversion Hrun; subst e' outs; clear Hrun.
  apply init_aes_inv in He as [Hlen _].
  simpl in Hwire. rewrite Hcat, <- app_assoc in Hwire.
  assert (Hct : (cfb_encrypt c0 p).2 ++ (cfb_encrypt (cfb_encrypt c0 p).1 (concat chunks)).2
               = (cfb_encrypt c0 (p ++ concat chunks)).2)
    by (by rewrite cfb_encrypt_app).
  rewrite Hct in Hwire.
  assert (Htake : take 16 first = rand).
  { apply (f_equal (take 16)) in Hwire.
    rewrite take_app_le in Hwire by lia.
    rewrite take_app_length' in Hwire by done. done. }
  assert (Hdrop : drop 16 first ++ concat rest = (cfb_encrypt c0 (p ++ concat chunks)).2).
  { apply (f_equal (drop 16)) in Hwire.
    rewrite drop_app_le in Hwire by lia.
    rewrite drop_app_length' in Hwire by done. done. }
  apply init_aes_inv in Hd as [_ ->].
  unfold decrypt_chunks. simpl feed.
  rewrite decrypt_first by done. simpl key. rewrite Htake. fold c0.
  set (d1 := set_decipher _ _).
  assert (Hd1 : streaming_in d1 (cfb_decrypt c0 (drop 16 first)).1) by done.
  destruct (decrypt_chunks_streaming d1 _ rest Hd1) as (d2 & plains & Hrun & _ & Hpl).
  unfold decrypt_chunks in Hrun. rewrite Hrun.
  exists d2, ((cfb_decrypt c0 (drop 16 first)).2 :: plains).
  split; [done|]. simpl. rewrite Hpl.
  assert (Hdec := cfb_decrypt_app c0 (drop 16 first) (concat rest)).
  rewrite Hdrop, cfb_decrypt_encrypt in Hdec.
  by inversion Hdec.
Qed.

(** C2.  A call of [decrypt] with fewer than 16 bytes on a session that has
    no decrypter yet delivers no output: it raises the library's
    [ValueError] for the short IV, and the session is left without a
    decrypter; none is built from the truncated IV. *)
Theorem decrypt_short_header_raises (e : Encryptor) (data : bytes) :
  method e = aes_256_cfb ->
  decipher e = None ->
  (length data < 16)%nat ->
  (decrypt e data).2 = Raise ValueError /\
  decipher (decrypt e data).1 = None.
Proof.
  intros Hm Hd Hlen. rewrite (decrypt_short e data Hm Hd Hlen). by split.
Qed.

(** C1, evaluated at a stream whose IV is split 15 + 1.  What one session
    encrypted decrypts as one buffer to the plaintext; fed as 15 bytes, then
    1 byte, then the rest, the first call raises [ValueError] and nothing is
    decrypted. *)
Theorem decrypt_split_iv_raises pw rand rand' (P W : bytes) e e1 d :
  Encryptor_init pw aes_256_cfb rand = Ok e ->
  Encryptor_init pw aes_256_cfb rand' = Ok d ->
  encrypt e P = (e1, Ok W) ->
  (decrypt_chunks d [W]).2 = Ok [P] /\
  (decrypt_chunks d [take 15 W; take 1 (drop 15 W); drop 16 W]).2
    = Raise ValueError.
Proof.
  intros He Hd Henc. split.
  - assert (Hrun : encrypt_chunks e [P] = (e1, Ok [W])).
    { unfold encrypt_chunks. simpl. by rewrite Henc. }
    destruct (encrypt_fresh pw rand e P He) as (e1' & Hp & _).
    rewrite Henc in Hp. inversion Hp; subst.
    assert (Hlen : (16 <= length (rand ++ (cfb_encrypt
               {| cfb_key := sha256 (utf8_encode pw); cfb_reg := rand |} P).2))%nat).
    { apply init_aes_inv in He as [Hl _]. rewrite length_app. lia. }
    destruct (roundtrip_chunked pw rand rand' [P] e d _ _ _ [] He Hd Hrun eq_refl Hlen)
      as (d' & plains & Hdec & Hcat).
    unfold decrypt_chunks in *. simpl feed in *.
    destruct (decrypt d _) as [d1 [out|x]]; [|done].
    inversion Hdec; subst d' plains. simpl in Hcat.
    rewrite !app_nil_r in Hcat. by subst out.
  - apply init_aes_inv in Hd as [_ ->].
    unfold decrypt_chunks. simpl feed.
    rewrite decrypt_short; [done..|].
    rewrite length_take. lia.
Qed.


End CipherFacts.

(** ** The table cipher *)

Section TableFacts.

Context `{L : Libs}.

Lemma insert_by_perm f x l : insert_by f x l ≡ₚ x :: l.
Proof.
  induction l as [|y l IH]; simpl; [done|].
  destruct (f x <=? f y); [done|].
  rewrite IH. apply Permutation_swap.
Qed.

Lemma sort_by_perm f l : sort_by f l ≡ₚ l.
Proof.
  induction l as [|x l IH]; simpl; [done|].
  unfold sort_by in *. simpl. by rewrite insert_by_perm, IH.
Qed.

Lemma sort_rounds_perm (g : Z -> Z -> Z) (ks : list Z) (t : list Z) :
  fold_left (fun table i => sort_by (g i) table) ks t ≡ₚ t.
Proof.
  revert t. induction ks as [|i ks IH]; intros t; simpl; [done|].
  by rewrite IH, sort_by_perm.
Qed.

Example sort_by_stable :
  sort_by (fun x => x mod 2) [3; 1; 2; 5; 4] = [2; 4; 3; 1; 5].
Proof. reflexivity. Qed.

Lemma get_table_perm pw : _get_table pw ≡ₚ range256.
Proof. unfold _get_table. apply sort_rounds_perm. Qed.

Lemma range256_length : length range256 = 256%nat.
Proof. reflexivity. Qed.

Lemma range256_lookup (n : nat) :
  (n < 256)%nat -> range256 !! n = Some (Z.of_nat n).
Proof.
  intros Hn. unfold range256.
  rewrite list_lookup_fmap, lookup_seq_lt by done. done.
Qed.

Lemma range256_elem x : x ∈ range256 <-> is_byte x.
Proof.
  unfold range256, is_byte. rewrite list_elem_of_fmap. split.
  - intros (n & -> & Hn). apply elem_of_seq in Hn. lia.
  - intros Hx. exists (Z.to_nat x). split; [lia|]. apply elem_of_seq. lia.
Qed.

Lemma range256_NoDup : NoDup range256.
Proof.
  unfold range256. apply NoDup_fmap_2; [|apply NoDup_seq].
  intros a b. lia.
Qed.

Lemma maketrans_fill_length frm to tbl :
  length (maketrans_fill frm to tbl) = length tbl.
Proof.
  revert to tbl. induction frm as [|f frm IH]; intros [|t to] tbl; simpl; try done.
  by rewrite IH, length_insert.
Qed.

Lemma maketrans_fill_other frm to tbl (k : nat) :
  (forall x, x ∈ frm -> Z.to_nat x ≠ k) ->
  maketrans_fill frm to tbl !! k = tbl !! k.
Proof.
  revert to tbl. induction frm as [|f frm IH]; intros [|t to] tbl Hk; simpl; try done.
  rewrite IH by (intros x Hx; apply Hk; by right).
  apply list_lookup_insert_ne. apply Hk. by left.
Qed.

Lemma maketrans_fill_lookup frm to tbl (n : nat) f v :
  NoDup frm ->
  Forall (fun x => 0 <= x /\ (Z.to_nat x < length tbl)%nat) frm ->
  frm !! n = Some f -> to !! n = Some v ->
  maketrans_fill frm to tbl !! Z.to_nat f = Some v.
Proof.
  revert to tbl n. induction frm as [|f0 frm IH]; intros to tbl n Hnd Hall Hf Hv.
  { done. }
  destruct to as [|t0 to]; [by destruct n|].
  apply NoDup_cons in Hnd as [Hnotin Hnd].
  apply Forall_cons in Hall as [[Hf0 Hlt] Hall].
  destruct n as [|n]; simpl in *.
  - inversion Hf; inversion Hv; subst f0 t0.
    rewrite maketrans_fill_other.
    + by apply list_lookup_insert_eq.
    + intros x Hx Heq.
      assert (0 <= x) by (by eapply Forall_forall in Hall as [? _]).
      assert (x = f) by lia. by subst.
  - eapply IH; [done| |done..].
    eapply Forall_impl; [done|]. intros x [? ?]. by rewrite length_insert.
Qed.

(** A table that is a permutation of the byte values is inverted by the
    table [maketrans] builds from it. *)
Lemma translate_maketrans (t d : bytes) :
  t ≡ₚ range256 -> is_bytes d ->
  translate (maketrans t range256) (translate t d) = d.
Proof.
  intros Hperm Hd. unfold translate. rewrite map_map.
  rewrite <- (map_id d) at 2. apply map_ext_Forall.
  eapply Forall_impl; [exact Hd|]. intros b Hb. unfold is_byte in Hb.
  assert (Hlen : length t = 256%nat) by (by rewrite Hperm).
  destruct (lookup_lt_is_Some_2 t (Z.to_nat b)) as [f Hf]; [lia|].
  rewrite (nth_lookup_Some _ _ _ _ Hf).
  assert (Hall : Forall (fun x => 0 <= x /\ (Z.to_nat x < length range256)%nat) t).
  { apply Forall_forall. intros x Hx. rewrite Hperm in Hx.
    apply range256_elem in Hx. unfold is_byte in Hx.
    rewrite range256_length. lia. }
  assert (Hnd : NoDup t) by (rewrite Hperm; apply range256_NoDup).
  assert (Hv : range256 !! Z.to_nat b = Some b).
  { rewrite range256_lookup by lia. f_equal. lia. }
  unfold maketrans.
  by rewrite (nth_lookup_Some _ _ _ _
                (maketrans_fill_lookup t range256 range256 _ f b Hnd Hall Hf Hv)).
Qed.

(** C10.  The table [_get_table] builds is a permutation of the 256 byte
    values, and with a method other than ['aes-256-cfb'] decrypting what
    [encrypt] returned gives the byte string back. *)
Theorem table_cipher_roundtrip pw meth rand (e : Encryptor) (d : bytes) :
  meth ≠ aes_256_cfb ->
  Encryptor_init pw meth rand = Ok e ->
  is_bytes d ->
  _get_table pw ≡ₚ range256 /\
  exists ct, encrypt e d = (e, Ok ct) /\ decrypt e ct = (e, Ok d).
Proof.
  intros Hm Hinit Hd. split; [apply get_table_perm|].
  unfold Encryptor_init in Hinit.
  destruct (String.eqb meth aes_256_cfb) eqn:Heq.
  { apply String.eqb_eq in Heq. done. }
  inversion Hinit; subst e; clear Hinit.
  exists (translate (_get_table pw) d).
  unfold encrypt, decrypt. simpl. rewrite Heq. split; [done|].
  by rewrite translate_maketrans by (apply get_table_perm || done).
Qed.

End TableFacts.

(** ** The accounting sink *)

Section SinkFacts.

Implicit Types (m : gmap string connection) (g : connection -> Z).

Lemma map_sum_empty g : map_sum g ∅ = 0.
Proof. unfold map_sum. by rewrite map_fold_empty. Qed.

Lemma map_sum_insert_fresh g m k r :
  m !! k = None -> map_sum g (<[k:=r]> m) = g r + map_sum g m.
Proof.
  intros Hk. unfold map_sum.
  rewrite map_fold_insert_L; [done| |done].
  intros. lia.
Qed.

Lemma map_sum_insert_existing g m k r0 r :
  m !! k = Some r0 -> map_sum g (<[k:=r]> m) = g r - g r0 + map_sum g m.
Proof.
  intros Hk.
  rewrite <- insert_delete_eq.
  rewrite map_sum_insert_fresh by apply lookup_delete_eq.
  unfold map_sum at 2.
  rewrite (map_fold_delete_L _ _ k r0 m); [|intros; lia|done].
  fold (map_sum g (delete k m)). lia.
Qed.

Lemma tracked_reset now : tracked ∅ ∅ (reset now).
Proof.
  split_and!.
  - unfold sink_consistent, sum_bytes_in, sum_bytes_out, count_active. simpl.
    by rewrite !map_sum_empty.
  - intros i. simpl. rewrite lookup_empty. split; [set_solver|by intros [? ?]].
  - intros i r. simpl. by rewrite lookup_empty.
Qed.

Lemma tracked_add added closed_ids cs now i h p :
  i ∉ added -> tracked added closed_ids cs ->
  tracked ({[i]} ∪ added) closed_ids (add_connection cs now i h p).
Proof.
  intros Hi ((Hin & Hout & Hact) & Hdom & Hst).
  assert (Hnone : connections cs !! i = None).
  { destruct (connections cs !! i) eqn:E; [|done].
    exfalso. apply Hi, Hdom. by eexists. }
  split_and!.
  - unfold sink_consistent, sum_bytes_in, sum_bytes_out, count_active in *. simpl.
    rewrite !map_sum_insert_fresh by done. simpl.
    unfold active_flag at 1. simpl. split_and!; lia.
  - intros j. simpl. rewrite lookup_insert. case_decide as Hj.
    + subst j. split; [intros _; by eexists|]. intros _.
      apply elem_of_union_l. by apply elem_of_singleton.
    + rewrite <- Hdom, elem_of_union, elem_of_singleton.
      split; [by intros [?|?] | by right].
  - intros j r. simpl. rewrite lookup_insert. case_decide as Hj.
    + intros [= <-] _. done.
    + apply Hst.
Qed.

Lemma tracked_update added closed_ids cs i a b :
  tracked added closed_ids cs ->
  tracked added closed_ids (update_traffic cs i a b).
Proof.
  intros ((Hin & Hout & Hact) & Hdom & Hst). unfold update_traffic.
  destruct (connections cs !! i) as [r|] eqn:E; [|done].
  split_and!.
  - unfold sink_consistent, sum_bytes_in, sum_bytes_out, count_active in *. simpl.
    rewrite !(map_sum_insert_existing _ _ _ r) by done.
    change (active_flag (add_traffic a b r)) with (active_flag r).
    simpl. split_and!; lia.
  - intros j. simpl. rewrite lookup_insert. case_decide as Hj.
    + subst j. split; [intros _; by eexists|]. intros _. apply Hdom. by eexists.
    + apply Hdom.
  - intros j r'. simpl. rewrite lookup_insert. case_decide as Hj.
    + subst j. intros [= <-] Hn. simpl. by eapply Hst.
    + apply Hst.
Qed.

Lemma tracked_close_known added closed_ids cs now i :
  i ∈ added -> i ∉ closed_ids -> tracked added closed_ids cs ->
  tracked added ({[i]} ∪ closed_ids) (close_connection cs now i).
Proof.
  intros Hi Hn ((Hin & Hout & Hact) & Hdom & Hst). unfold close_connection.
  destruct (proj1 (Hdom i) Hi) as [r E]. rewrite E.
  assert (Hr : c_status r = active) by (by eapply Hst).
  split_and!.
  - unfold sink_consistent, sum_bytes_in, sum_bytes_out, count_active in *. simpl.
    rewrite !(map_sum_insert_existing _ _ _ r) by done.
    change (active_flag (mark_closed now r)) with 0.
    assert (active_flag r = 1) by (unfold active_flag; by rewrite Hr).
    simpl. split_and!; lia.
  - intros j. simpl. rewrite lookup_insert. case_decide as Hj.
    + subst j. split; [intros _; by eexists|done].
    + apply Hdom.
  - intros j r'. simpl. rewrite lookup_insert. case_decide as Hj.
    + subst j. intros _ Hn'. exfalso. apply Hn'.
      apply elem_of_union_l. by apply elem_of_singleton.
    + intros ? Hn'. eapply Hst; [done|]. intros ?. apply Hn'.
      by apply elem_of_union_r.
Qed.

Lemma close_unknown cs now i :
  connections cs !! i = None -> close_connection cs now i = cs.
Proof. intros E. unfold close_connection. by rewrite E. Qed.

Lemma update_unknown cs i a b :
  connections cs !! i = None -> update_traffic cs i a b = cs.
Proof. intros E. unfold update_traffic. by rewrite E. Qed.

Lemma tracked_run calls : forall added closed_ids cs,
  tracked added closed_ids cs ->
  add_close_once added closed_ids calls = true ->
  sink_consistent (sink_run cs calls).
Proof.
  induction calls as [|c calls IH]; intros added closed_ids cs Ht Hok.
  { by destruct Ht. }
  unfold sink_run in *. destruct c as [now i h p|i a b|now i|now]; simpl in *.
  - case_decide; [done|]. eapply IH; [|done]. by apply tracked_add.
  - eapply IH; [|done]. by apply tracked_update.
  - case_decide as Hi.
    + case_decide; [done|]. eapply IH; [|done]. by apply tracked_close_known.
    + eapply IH; [|done]. rewrite close_unknown; [done|].
      destruct Ht as (_ & Hdom & _).
      destruct (connections cs !! i) eqn:E; [|done].
      exfalso. apply Hi, Hdom. by eexists.
  - eapply IH; [|done]. apply tracked_reset.
Qed.

(** C9, as amended.  From a new sink, after any sequence of calls in which
    no id is added twice between two resets and no added id is closed
    twice, the byte totals are the sums over the stored records and
    [active_connections] is the number of stored records that are active;
    [update_traffic] and [close_connection] on an id that is not stored
    change nothing. *)
Theorem sink_totals_consistent (now0 : Z) (calls : list sink_call) :
  add_close_once ∅ ∅ calls = true ->
  sink_consistent (sink_run (reset now0) calls) /\
  (forall cs i now a b,
      connections cs !! i = None ->
      update_traffic cs i a b = cs /\ close_connection cs now i = cs).
Proof.
  intros Hok. split.
  - eapply tracked_run; [apply tracked_reset | done].
  - intros cs i now a b E. split; [by apply update_unknown | by apply close_unknown].
Qed.

(** C9 as stated fails: every id here is closed at most once (never), yet
    adding an id again replaces its record, which drops the bytes the old
    record had counted from the sum while the total keeps them. *)
Lemma sink_duplicate_add_breaks_totals :
  let calls :=
    [CallAdd 0 "a" "10.0.0.1" 4000; CallUpdate "a" 5 0;
     CallAdd 1 "a" "10.0.0.1" 4000] in
  close_once ∅ ∅ calls = true /\
  ~ sink_consistent (sink_run (reset 0) calls).
Proof.
  split; [reflexivity|].
  intros (Hin & _). revert Hin.
  unfold sink_run, sum_bytes_in. simpl.
  unfold update_traffic. simpl. rewrite lookup_insert_eq. simpl.
  rewrite !insert_insert_eq, map_sum_insert_fresh by apply lookup_empty.
  rewrite map_sum_empty. simpl. lia.
Qed.

End SinkFacts.

(** ** Handlers: what every run does

    A relation [Q] between the state before and the state after, reflexive
    and transitive, that holds across each single effect, holds across every
    handler built from these effects. *)

Section Steps.

Context `{L : Libs} (Q : state -> state -> Prop) `{!StepRel Q}.

Lemma steps_ret {A} (a : A) : steps Q (ret a).
Proof. intros s. apply Q_refl. Qed.

Lemma steps_raise {A} e : steps Q (raise (A:=A) e).
Proof. intros s. apply Q_refl. Qed.

Lemma steps_return {A} : steps Q (return_ (A:=A)).
Proof. intros s. apply Q_refl. Qed.

Lemma steps_break {A} : steps Q (break (A:=A)).
Proof. intros s. apply Q_refl. Qed.

Lemma steps_bind {A B} (m : M A) (f : A -> M B) :
  steps Q m -> (forall a, steps Q (f a)) -> steps Q (bind m f).
Proof.
  intros Hm Hf s. unfold bind. specialize (Hm s).
  destruct (m s) as [[a| | | |] s']; simpl in *; try done.
  eapply Q_trans; [exact Hm | apply Hf].
Qed.

Lemma steps_try {A} (m h : M A) :
  steps Q m -> steps Q h -> steps Q (try_socket_error m h).
Proof.
  intros Hm Hh s. unfold try_socket_error. specialize (Hm s).
  destruct (m s) as [[a|[]| | |] s']; simpl in *; try done.
  eapply Q_trans; [exact Hm | apply Hh].
Qed.

Lemma steps_finally {A} (m : M A) (fin : M unit) :
  steps Q m -> steps Q fin -> steps Q (finally m fin).
Proof.
  intros Hm Hf s. unfold finally. specialize (Hm s).
  destruct (m s) as [[a| | | |] s']; simpl in *; try done;
    (eapply Q_trans; [exact Hm | apply Hf]).
Qed.

Lemma steps_emit ev : ok_event ev -> steps Q (emit ev).
Proof. intros Hev s. by apply Q_event. Qed.

Lemma steps_recv sk n r : ok_event (EvRecv sk n) -> steps Q (recv sk n r).
Proof.
  intros Hev. apply steps_bind; [by apply steps_emit|].
  intros _. destruct r; [apply steps_ret | apply steps_raise].
Qed.

Lemma steps_send sk d r : ok_event (EvSend sk d) -> steps Q (send sk d r).
Proof.
  intros Hev. apply steps_bind; [by apply steps_emit|].
  intros _. destruct r; [apply steps_ret | apply steps_raise].
Qed.

Lemma steps_send_all sk d r : ok_event (EvSend sk d) -> steps Q (send_all sk d r).
Proof.
  intros Hev. apply steps_bind; [by apply steps_emit|].
  intros _. destruct r; [apply steps_ret | apply steps_raise].
Qed.

Lemma steps_close sk : ok_event (EvClose sk) -> steps Q (close sk).
Proof. apply steps_emit. Qed.

Lemma steps_connect h p r : ok_event (EvConnect h p) -> steps Q (connect h p r).
Proof.
  intros Hev. apply steps_bind; [by apply steps_emit|].
  intros _. destruct r; [apply steps_ret | apply steps_raise].
Qed.

Lemma steps_index d i : steps Q (index d i).
Proof. unfold index. destruct (d !! i); [apply steps_ret | apply steps_raise]. Qed.

Lemma steps_inet_ntoa d : steps Q (inet_ntoa d).
Proof. unfold inet_ntoa. case_decide; [apply steps_ret | apply steps_raise]. Qed.

Lemma steps_decode d : steps Q (decode d).
Proof. unfold decode. destruct (utf8_decode d); [apply steps_ret | apply steps_raise]. Qed.

Lemma steps_unpack_port d : steps Q (unpack_port d).
Proof.
  unfold unpack_port. destruct (unpack_be16 d); [apply steps_ret | apply steps_raise].
Qed.

Lemma steps_getpeername r : steps Q (getpeername r).
Proof. destruct r; [apply steps_ret | apply steps_raise]. Qed.

Lemma steps_init_encryptor pw meth rand : steps Q (init_encryptor pw meth rand).
Proof.
  intros s. unfold init_encryptor.
  destruct (Encryptor_init pw meth rand); simpl; [apply Q_encryptor | apply Q_refl].
Qed.

Lemma steps_with_encryptor f d : steps Q (with_encryptor f d).
Proof.
  intros s. unfold with_encryptor.
  destruct (encryptor s) as [e|]; [|apply Q_refl].
  destruct (f e d) as [e' [out|x]]; simpl; apply Q_encryptor.
Qed.

Lemma steps_on_sink f : ok_sink f -> steps Q (on_sink f).
Proof. intros Hf s. by apply Q_sink. Qed.

Lemma steps_relay_loop body rounds :
  (forall ev, steps Q (body ev)) -> steps Q (relay_loop body rounds).
Proof.
  intros Hb. induction rounds as [|ev rounds IH]; intros s; simpl.
  { apply Q_refl. }
  specialize (Hb ev s).
  destruct (body ev s) as [[a| | | |] s']; simpl in *; try done.
  eapply Q_trans; [exact Hb | apply IH].
Qed.

(** One leg of a relay round, whichever transform and sockets it uses. *)
Lemma steps_leg (f : Encryptor -> bytes -> Encryptor * result bytes)
    (src dst : sockname) (l : option leg)
    (count : bytes -> bytes -> ConnectionStats -> ConnectionStats) :
  (forall ev, ok_event ev) ->
  (forall d o, ok_sink (count d o)) ->
  steps Q
    match l with
    | Some l =>
        bind (recv src 4096 (rx l)) (fun data =>
        if len data <=? 0 then break else
        bind (with_encryptor f data) (fun out =>
        bind (send_all dst out (tx l)) (fun result =>
        if result <? len data then raise SendFailed else
        on_sink (count data out))))
    | None => ret tt
    end.
Proof.
  intros Hev Hcount. destruct l as [l|]; [|apply steps_ret].
  apply steps_bind; [by apply steps_recv|]. intros data.
  destruct (len data <=? 0); [apply steps_break|].
  apply steps_bind; [apply steps_with_encryptor|]. intros out.
  apply steps_bind; [by apply steps_send_all|]. intros result.
  destruct (result <? len data); [apply steps_raise|].
  by apply steps_on_sink.
Qed.

Lemma steps_client_round cid ev :
  (forall ev, ok_event ev) ->
  (forall a b, ok_sink (fun cs => update_traffic cs cid a b)) ->
  steps Q (client_round cid ev).
Proof.
  intros Hev Hup. destruct ev as [|ls lr]; [apply steps_raise|].
  unfold client_round. apply steps_bind.
  - apply (steps_leg encrypt Sock Remote ls
             (fun _ out cs => update_traffic cs cid 0 (len out))); [done|].
    intros; apply Hup.
  - intros _.
    apply (steps_leg decrypt Remote Sock lr
             (fun _ out cs => update_traffic cs cid (len out) 0)); [done|].
    intros; apply Hup.
Qed.

Lemma steps_server_round cid ev :
  (forall ev, ok_event ev) ->
  (forall a b, ok_sink (fun cs => update_traffic cs cid a b)) ->
  steps Q (server_round cid ev).
Proof.
  intros Hev Hup. destruct ev as [|ls lr]; [apply steps_raise|].
  unfold server_round. apply steps_bind.
  - apply (steps_leg decrypt Sock Remote ls
             (fun _ out cs => update_traffic cs cid 0 (len out))); [done|].
    intros; apply Hup.
  - intros _.
    apply (steps_leg encrypt Remote Sock lr
             (fun data _ cs => update_traffic cs cid (len data) 0)); [done|].
    intros; apply Hup.
Qed.

End Steps.

(** ** The relay loops *)

Section RelayFacts.

Context `{L : Libs}.

#[export] Instance appends_rel φ : StepRel (appends φ).
Proof.
  refine {| ok_event := φ; ok_sink := fun _ => True |}.
  - intros s. exists []. by rewrite app_nil_r.
  - intros s1 s2 s3 (u & Hu & Hfu) (v & Hv & Hfv). exists (u ++ v).
    rewrite Hv, Hu, app_assoc. split; [done|]. by apply Forall_app.
  - intros ev s Hev. exists [ev]. split; [done|]. by constructor.
  - intros e s. exists []. simpl. by rewrite app_nil_r.
  - intros f s _. exists []. simpl. by rewrite app_nil_r.
Defined.

#[export] Instance sink_keeps_rel J : StepRel (sink_keeps J).
Proof.
  refine {| ok_event := fun _ => True;
            ok_sink := fun f => forall cs, J cs -> J (f cs) |}.
  - intros s H. exact H.
  - intros s1 s2 s3 H12 H23 H1. by apply H23, H12.
  - intros ev s _ H. exact H.
  - intros e s H. exact H.
  - intros f s Hf H. by apply Hf.
Defined.

Lemma update_keeps_open cid i a b cs :
  open_record cid cs -> open_record cid (update_traffic cs i a b).
Proof.
  intros (r & Hr & Hid & Hst & Hend). unfold update_traffic.
  destruct (connections cs !! i) as [r'|] eqn:E; [|by exists r].
  unfold open_record. simpl. rewrite lookup_insert. case_decide as Hi.
  - subst i. rewrite Hr in E. inversion E; subst r'.
    by exists (add_traffic a b r).
  - by exists r.
Qed.

Lemma add_opens cs now cid h p : open_record cid (add_connection cs now cid h p).
Proof. unfold open_record. simpl. rewrite lookup_insert_eq. by eexists. Qed.

Lemma relay_loop_keeps_open cid rounds s :
  open_record cid (sink s) ->
  open_record cid (sink (relay_loop (client_round cid) rounds s).2).
Proof.
  revert s. apply (steps_relay_loop (sink_keeps (open_record cid))).
  intros ev. apply (steps_client_round (sink_keeps (open_record cid))); [done|].
  intros a b cs. apply update_keeps_open.
Qed.

Local Abbreviation any := (appends (fun _ => True)).

Lemma handle_tcp_appends env : steps any (handle_tcp env).
Proof.
  unfold handle_tcp. apply (steps_finally any).
  - apply (steps_bind any); [apply (steps_getpeername any)|]. intros hp.
    apply (steps_bind any); [by apply (steps_on_sink any)|]. intros _.
    apply (steps_relay_loop any). intros ev. by apply (steps_client_round any).
  - apply (steps_bind any); [by apply (steps_close any)|]. intros _.
    by apply (steps_close any).
Qed.

Lemma handle_tcp_run env s hp :
  peername env = Some hp ->
  handle_tcp env s =
  let '(r, s') :=
    relay_loop (client_round (client_id env)) (rounds env)
      (set_sink (add_connection (sink s) (now env) (client_id env) hp.1 hp.2) s) in
  match r with
  | Blocked => (Blocked, s')
  | _ => (r, record_event (EvClose Remote) (record_event (EvClose Sock) s'))
  end.
Proof.
  intros Hpeer. unfold handle_tcp, finally, bind, getpeername.
  rewrite Hpeer. reflexivity.
Qed.

(** C4, evaluated on every run of the client's relay.  Whenever
    [handle_tcp] ends, by end of stream, by an exception of a transform or
    of a write, both sockets have been closed, and the record added for the
    tunnel is still stored as active with no end time: no exit path calls
    [close_connection], and a snapshot taken afterwards lists the record as
    active. *)
Theorem relay_exit_leaves_record_active (env : relay_env) (s : state) hp :
  peername env = Some hp ->
  outcome_of (handle_tcp env s).1 ≠ Running ->
  let s' := (handle_tcp env s).2 in
  (exists tr, trace s' = tr ++ [EvClose Sock; EvClose Remote]) /\
  open_record (client_id env) (sink s') /\
  (forall now', exists r,
      r ∈ (get_stats (sink s') now').2.2 /\
      c_id r = client_id env /\ c_status r = active /\ c_end_time r = None).
Proof.
  intros Hpeer Hout s'.
  assert (Hopen : open_record (client_id env) (sink s') /\
                  exists tr, trace s' = tr ++ [EvClose Sock; EvClose Remote]).
  { subst s'. revert Hout. rewrite (handle_tcp_run env s hp Hpeer).
    set (s1 := set_sink _ s).
    assert (H1 : open_record (client_id env) (sink s1)) by apply add_opens.
    apply (relay_loop_keeps_open _ (rounds env)) in H1.
    destruct (relay_loop _ _ s1) as [[[]| | | |] s2]; simpl in *;
      intros Hout; try done; (split; [done|]);
      exists (trace s2); by rewrite <- app_assoc. }
  destruct Hopen as [Hopen Htr]. split_and!; [done..|].
  intros now'. destruct Hopen as (r & Hr & Hrest). exists r. split; [|done].
  simpl. apply list_elem_of_fmap. exists (client_id env, r). split; [done|].
  by apply elem_of_map_to_list.
Qed.


End RelayFacts.

(** ** The SOCKS5 front-end of the client *)

Section FrontEndFacts.

Context `{L : Libs}.

Local Abbreviation any := (appends (fun _ => True)).

Lemma reply_first_app u v : reply_first u -> reply_first v -> reply_first (u ++ v).
Proof.
  intros [Hu|(pre & post & -> & Hpre)] Hv.
  - destruct Hv as [Hv|(pre & post & -> & Hpre)].
    + left. by apply Forall_app.
    + right. exists (u ++ pre), post. rewrite app_assoc. split; [done|].
      by apply Forall_app.
  - right. exists pre, (post ++ v). by rewrite <- app_assoc.
Qed.

#[export] Instance leads_rel : StepRel leads.
Proof.
  refine {| ok_event := on_sock; ok_sink := fun _ => True |}.
  - intros s. exists []. rewrite app_nil_r. split; [done|]. by left.
  - intros s1 s2 s3 (u & Hu & Hfu) (v & Hv & Hfv). exists (u ++ v).
    rewrite Hv, Hu, app_assoc. split; [done|]. by apply reply_first_app.
  - intros ev s Hev. exists [ev]. split; [done|]. left. by constructor.
  - intros e s. exists []. simpl. rewrite app_nil_r. split; [done|]. by left.
  - intros f s _. exists []. simpl. rewrite app_nil_r. split; [done|]. by left.
Defined.

Lemma steps_reply {A} r (k : M A) :
  steps any k -> steps leads (bind (send Sock reply r) (fun _ => k)).
Proof.
  intros Hk s. unfold bind, send, emit. simpl.
  destruct r; simpl.
  - destruct (Hk (record_event (EvSend Sock reply) s)) as (suf & Hsuf & _).
    exists (EvSend Sock reply :: suf). split.
    + rewrite Hsuf. simpl. by rewrite <- app_assoc.
    + right. by exists [], suf.
  - exists [EvSend Sock reply]. split; [done|]. right. by exists [], [].
Qed.

Lemma read_target_leads atyp env : steps leads (read_target atyp env).
Proof.
  unfold read_target. destruct (atyp =? 1).
  { apply (steps_bind leads); [by apply (steps_recv leads)|]. intros ip.
    apply (steps_bind leads); [apply (steps_inet_ntoa leads)|]. intros _.
    apply (steps_ret leads). }
  destruct (atyp =? 3); [|apply (steps_return leads)].
  apply (steps_bind leads); [by apply (steps_recv leads)|]. intros lenb.
  apply (steps_bind leads); [apply (steps_index leads)|]. intros n.
  apply (steps_bind leads); [by apply (steps_recv leads)|]. intros raw.
  apply (steps_bind leads); [apply (steps_decode leads)|]. intros name.
  apply (steps_ret leads).
Qed.

Lemma dial_and_relay_appends cfg env t addr_port :
  steps any
    (try_socket_error
       (bind (connect (HostName (server_addr cfg)) (server_port cfg) (dial env))
          (fun _ => bind (send_header (header t addr_port) (tx_header env))
          (fun _ => handle_tcp (relay env))))
       return_).
Proof.
  apply (steps_try any); [|apply (steps_return any)].
  apply (steps_bind any); [by apply (steps_connect any)|]. intros _.
  apply (steps_bind any); [|intros _; apply handle_tcp_appends].
  unfold send_header. apply (steps_bind any); [apply (steps_with_encryptor any)|].
  intros out. by apply (steps_send any).
Qed.

Lemma handle_connection_leads cfg env : steps leads (handle_connection cfg env).
Proof.
  unfold handle_connection.
  apply (steps_finally leads); [|by apply (steps_close leads)].
  apply (steps_try leads); [|apply (steps_ret leads)].
  apply (steps_bind leads); [apply (steps_init_encryptor leads)|]. intros _.
  apply (steps_bind leads); [by apply (steps_recv leads)|]. intros _.
  apply (steps_bind leads); [by apply (steps_send leads)|]. intros _.
  apply (steps_bind leads); [by apply (steps_recv leads)|]. intros data.
  apply (steps_bind leads); [apply (steps_index leads)|]. intros mode.
  destruct (negb (mode =? 1)); [apply (steps_return leads)|].
  apply (steps_bind leads); [apply (steps_index leads)|]. intros atyp.
  apply (steps_bind leads); [apply read_target_leads|]. intros t.
  apply (steps_bind leads); [by apply (steps_recv leads)|]. intros addr_port.
  apply (steps_bind leads); [apply (steps_unpack_port leads)|]. intros port.
  apply steps_reply. apply dial_and_relay_appends.
Qed.

(** Running a bind whose first part is known. *)
Lemma bind_val {A B} (m : M A) (f : A -> M B) s a s' :
  m s = (Val a, s') -> bind m f s = f a s'.
Proof. intros H. unfold bind. by rewrite H. Qed.

Lemma bind_assoc {A B C} (m : M A) (f : A -> M B) (g : B -> M C) s :
  bind (bind m f) g s = bind m (fun a => bind (f a) g) s.
Proof. unfold bind. by destruct (m s) as [[a| | | |] s']. Qed.

Lemma wrapped_trace (m : M unit) s :
  exists suf,
    trace (finally (try_socket_error m (ret tt)) (close Sock) s).2
    = trace (m s).2 ++ suf.
Proof.
  unfold finally, try_socket_error, close, emit, ret.
  destruct (m s) as [[a|[]| | |] s']; simpl; eauto using app_nil_r.
  all: by (exists []; rewrite app_nil_r).
Qed.



(** *** Accepted requests *)


Lemma read_target_run env atyp t s :
  names_target env atyp t ->
  read_target atyp env s =
  (Val t, {| encryptor := encryptor s; sink := sink s;
             trace := trace s ++ addr_reads t |}).
Proof.
  destruct t as [ip|n str]; simpl.
  - intros (-> & Hip & Hlen). unfold read_target. simpl. rewrite Hip.
    erewrite bind_val by reflexivity.
    rewrite take_ge by (rewrite Hlen; simpl; lia).
    unfold bind, inet_ntoa. rewrite decide_True by done. done.
  - intros (-> & name & Hn & Hname & Hlen & Hdec). unfold read_target. simpl.
    rewrite Hn, Hname.
    do 3 (erewrite bind_val by reflexivity).
    rewrite take_ge by done.
    unfold bind, decode, record_event. rewrite Hdec. simpl.
    by rewrite <- app_assoc.
Qed.

Lemma reply_then {A} r (k : M A) s :
  steps any k ->
  exists suf, trace (bind (send Sock reply r) (fun _ => k) s).2
              = trace s ++ [EvSend Sock reply] ++ suf.
Proof.
  intros Hk. unfold bind, send, emit. simpl. destruct r; simpl.
  - destruct (Hk (record_event (EvSend Sock reply) s)) as (suf & Hsuf & _).
    exists suf. rewrite Hsuf. simpl. by rewrite <- app_assoc.
  - by exists [].
Qed.

(** An accepted request is answered. *)
Lemma run_to_reply cfg env cs e t port :
  Encryptor_init (password cfg) (cfg_method cfg) (rand_iv env) = Ok e ->
  accepted env t port ->
  exists suf,
    trace (handle_connection cfg env (initial cs)).2 =
    [EvRecv Sock 262; EvSend Sock [5; 0]; EvRecv Sock 4] ++ addr_reads t ++
    [EvRecv Sock 2; EvSend Sock reply] ++ suf.
Proof.
  intros Hinit (g & ver & rsv & atyp & hi & lo &
                Hg & Hm & Hreq & Ht & Hport & _ & _ & _).
  unfold handle_connection.
  destruct (wrapped_trace
    (bind (init_encryptor (password cfg) (cfg_method cfg) (rand_iv env)) (fun _ =>
     bind (recv Sock 262 (rx_greeting env)) (fun _ =>
     bind (send Sock [5; 0] (tx_method env)) (fun _ =>
     bind (recv Sock 4 (rx_request env)) (fun data =>
     bind (index data 1) (fun mode =>
     if negb (mode =? 1) then return_ else
     bind (index data 3) (fun addrtype =>
     bind (read_target addrtype env) (fun t =>
     bind (recv Sock 2 (rx_port env)) (fun addr_port =>
     bind (unpack_port addr_port) (fun port =>
     bind (send Sock reply (tx_reply env)) (fun _ =>
     try_socket_error
       (bind (connect (HostName (server_addr cfg)) (server_port cfg) (dial env))
          (fun _ => bind (send_header (header t addr_port) (tx_header env))
          (fun _ => handle_tcp (relay env))))
       return_))))))))))) (initial cs)) as (suf1 & ->).
  rewrite (bind_val _ _ _ tt (set_encryptor e (initial cs)))
    by (unfold init_encryptor; by rewrite Hinit).
  rewrite Hg, Hm, Hreq, Hport.
  do 4 (erewrite bind_val by reflexivity).
  change (negb (1 =? 1)) with false. cbv iota.
  erewrite bind_val by reflexivity.
  erewrite bind_val by (by apply read_target_run).
  do 2 (erewrite bind_val by reflexivity).
  change (take (Z.to_nat 2) [hi; lo]) with [hi; lo].
  match goal with
  | |- context [bind (send Sock reply ?r) _ ?s] =>
      destruct (reply_then r _ s (dial_and_relay_appends cfg env t [hi; lo]))
        as (suf2 & Hsuf2)
  end.
  rewrite Hsuf2. exists (suf2 ++ suf1). simpl. by rewrite <- !app_assoc.
Qed.

Lemma sent_on_app sk (u v : list event) :
  sent_on sk (u ++ v) = sent_on sk u ++ sent_on sk v.
Proof. apply omap_app. Qed.


Lemma addr_reads_on_sock t : Forall on_sock (addr_reads t).
Proof. destruct t; repeat constructor. Qed.

(** The run of a request whose command is not CONNECT. *)
Lemma run_unsupported cfg env cs e g data mode :
  Encryptor_init (password cfg) (cfg_method cfg) (rand_iv env) = Ok e ->
  rx_greeting env = RecvData g -> tx_method env = SendOk ->
  rx_request env = RecvData data ->
  data !! 1%nat = Some mode -> mode ≠ 1 ->
  handle_connection cfg env (initial cs) =
  (Return,
   {| encryptor := Some e; sink := cs;
      trace := [EvRecv Sock 262; EvSend Sock [5; 0]; EvRecv Sock 4; EvClose Sock] |}).
Proof.
  intros Hinit Hg Hm Hreq Hmode Hne.
  unfold handle_connection, finally, try_socket_error.
  rewrite (bind_val _ _ _ tt (set_encryptor e (initial cs)))
    by (unfold init_encryptor; by rewrite Hinit).
  rewrite Hg, Hm, Hreq.
  do 3 (erewrite bind_val by reflexivity).
  rewrite (bind_val _ _ _ mode
             (record_event (EvRecv Sock 4)
                (record_event (EvSend Sock [5; 0])
                   (record_event (EvRecv Sock 262) (set_encryptor e (initial cs)))))).
  2:{ unfold index. rewrite lookup_take_lt by (simpl; lia). by rewrite Hmode. }
  assert (Hm1 : negb (mode =? 1) = true).
  { apply negb_true_iff, Z.eqb_neq. done. }
  rewrite Hm1. reflexivity.
Qed.

(** C5, as amended.  When the request's command byte is not 1, the client
    sends nothing in answer to the request (the method selection [05 00] is
    all it ever sent), closes the user's socket and opens no connection to
    the server. *)
Theorem unsupported_command_closed_without_reply cfg env cs e g data mode :
  Encryptor_init (password cfg) (cfg_method cfg) (rand_iv env) = Ok e ->
  rx_greeting env = RecvData g -> tx_method env = SendOk ->
  rx_request env = RecvData data ->
  data !! 1%nat = Some mode -> mode ≠ 1 ->
  let r := handle_connection cfg env (initial cs) in
  outcome_of r.1 = Finished /\
  trace r.2 = [EvRecv Sock 262; EvSend Sock [5; 0]; EvRecv Sock 4; EvClose Sock].
Proof.
  intros Hinit Hg Hm Hreq Hmode Hne r. subst r.
  by rewrite (run_unsupported cfg env cs e g data mode).
Qed.

(** C6.  For an accepted CONNECT request the client hands the ten bytes
    [05 00 00 01 00 00 00 00 00 00] to [send] on the user's socket, and
    every event before that is on the user's socket: the connection to the
    server is opened, and bytes are sent to it, only afterwards. *)
Theorem reply_precedes_dial cfg env cs e t port :
  Encryptor_init (password cfg) (cfg_method cfg) (rand_iv env) = Ok e ->
  accepted env t port ->
  let tr := trace (handle_connection cfg env (initial cs)).2 in
  reply = [5; 0; 0; 1; 0; 0; 0; 0; 0; 0] /\
  exists pre post, tr = pre ++ EvSend Sock reply :: post /\ Forall on_sock pre.
Proof.
  intros Hinit Hacc tr. split; [reflexivity|].
  destruct (run_to_reply cfg env cs e t port Hinit Hacc) as (suf & Htr).
  exists ([EvRecv Sock 262; EvSend Sock [5; 0]; EvRecv Sock 4] ++ addr_reads t
          ++ [EvRecv Sock 2]), suf.
  split.
  - subst tr. rewrite Htr. by rewrite <- !app_assoc.
  - apply Forall_app. split; [repeat constructor|].
    apply Forall_app. split; [apply addr_reads_on_sock | repeat constructor].
Qed.


End FrontEndFacts.

(** ** The server's first read, and two threads on one proxy *)

Section SharingFacts.

Context `{L : Libs}.

(** server3.py reads one byte and decrypts it before anything else: with
    ['aes-256-cfb'] that first call has no IV to take, and the handler ends
    there with the library's [ValueError], nothing dialled. *)
Lemma server_handle_first_byte KEY env cs d e :
  Encryptor_init KEY aes_256_cfb (s_rand_iv env) = Ok e ->
  s_rx_addrtype env = RecvData d ->
  handle KEY aes_256_cfb env (initial cs) =
  (Exc ValueError,
   {| encryptor := Some (set_iv e (take 16 (take 1 d))); sink := cs;
      trace := [EvRecv Sock 1] |}).
Proof.
  intros Hinit Hrx. unfold handle, try_socket_error.
  rewrite (bind_val _ _ _ tt (set_encryptor e (initial cs)))
    by (unfold init_encryptor; by rewrite Hinit).
  rewrite Hrx. erewrite bind_val by reflexivity.
  apply init_aes_inv in Hinit as [_ ->].
  unfold bind, self_decrypt, with_encryptor. simpl.
  rewrite decrypt_short; [done..|].
  rewrite length_take. lia.
Qed.

Lemma run_step_init sh tid pw meth rand e :
  Encryptor_init pw meth rand = Ok e ->
  run_step sh tid (StepInit pw meth rand) =
  {| sh_encryptor := Some e; sh_sink := sh_sink sh;
     sh_traces := <[tid := default [] (sh_traces sh !! tid)]> (sh_traces sh) |}.
Proof.
  intros Hinit. unfold run_step, step_code, init_encryptor. by rewrite Hinit.
Qed.

Lemma run_step_header sh tid d e e' out :
  sh_encryptor sh = Some e ->
  encrypt e d = (e', Ok out) ->
  run_step sh tid (StepHeader d SendOk) =
  {| sh_encryptor := Some e'; sh_sink := sh_sink sh;
     sh_traces := <[tid := default [] (sh_traces sh !! tid) ++ [EvSend Remote out]]>
                    (sh_traces sh) |}.
Proof.
  intros He Henc.
  unfold run_step, step_code, send_header, bind, self_encrypt, with_encryptor.
  simpl. by rewrite He, Henc.
Qed.

Lemma run_step_round_up sh tid cid d e e' out :
  sh_encryptor sh = Some e ->
  encrypt e d = (e', Ok out) ->
  d ≠ [] -> (length d <= 4096)%nat -> (length d <= length out)%nat ->
  run_step sh tid
    (StepRound cid (SelectReady (Some {| rx := RecvData d; tx := SendOk |}) None)) =
  {| sh_encryptor := Some e';
     sh_sink := update_traffic (sh_sink sh) cid 0 (len out);
     sh_traces := <[tid := default [] (sh_traces sh !! tid)
                           ++ [EvRecv Sock 4096; EvSend Remote out]]>
                    (sh_traces sh) |}.
Proof.
  intros He Henc Hne Hlen Hout.
  assert (Hpos : (len d <=? 0) = false).
  { apply Z.leb_gt. unfold len. destruct d; [done|]. simpl. lia. }
  assert (Hres : (len out <? len d) = false).
  { apply Z.ltb_ge. unfold len. lia. }
  unfold run_step, step_code, client_round, bind, recv, self_encrypt,
    with_encryptor, send_all, on_sink, emit, ret. simpl.
  rewrite (take_ge d) by (simpl; lia). rewrite Hpos. simpl.
  rewrite He, Henc. simpl. rewrite Hres. simpl.
  by rewrite <- app_assoc.
Qed.

(** C8, evaluated on two connections accepted by the one client.  The
    first thread assigns [self.encryptor] and sends its header; the second
    thread is started and assigns [self.encryptor]; the first thread then
    relays bytes of its user.  These bytes go to the first tunnel's server
    socket under the second tunnel's session: they are prefixed with the
    second IV and encrypted from it, and the session left for the second
    tunnel has already sent its IV. *)
Theorem shared_encryptor_crosses_tunnels pw (ivA ivB hdrA d : bytes) cidA cs :
  length ivA = 16%nat -> length ivB = 16%nat ->
  d ≠ [] -> (length d <= 4096)%nat ->
  let k := sha256 (utf8_encode pw) in
  let ready := SelectReady (Some {| rx := RecvData d; tx := SendOk |}) None in
  let sh :=
    run_schedule {| sh_encryptor := None; sh_sink := cs; sh_traces := ∅ |}
      [(0%nat, StepInit pw aes_256_cfb ivA); (0%nat, StepHeader hdrA SendOk);
       (1%nat, StepInit pw aes_256_cfb ivB); (0%nat, StepRound cidA ready)] in
  sent_on Remote (default [] (sh_traces sh !! 0%nat)) =
    [ivA ++ (cfb_encrypt {| cfb_key := k; cfb_reg := ivA |} hdrA).2;
     ivB ++ (cfb_encrypt {| cfb_key := k; cfb_reg := ivB |} d).2] /\
  exists e, sh_encryptor sh = Some e /\ iv e = Some ivB /\ iv_sent e = true.
Proof.
  intros HA HB Hne Hlen k ready sh. subst sh ready.
  pose proof (init_aes pw ivA HA) as HinitA.
  pose proof (init_aes pw ivB HB) as HinitB.
  destruct (encrypt_fresh pw ivA _ hdrA HinitA) as (eA1 & HencA & _).
  destruct (encrypt_fresh pw ivB _ d HinitB)
    as (eB1 & HencB & HstB & _ & _ & HivB).
  unfold run_schedule. simpl fold_left.
  rewrite (run_step_init _ _ _ _ _ _ HinitA).
  erewrite run_step_header; [|reflexivity|exact HencA].
  rewrite (run_step_init _ _ _ _ _ _ HinitB).
  erewrite run_step_round_up; [|reflexivity|exact HencB|done|done|].
  2:{ rewrite length_app, cfb_encrypt_length. lia. }
  simpl. split.
  - rewrite lookup_insert_eq. simpl.
    rewrite lookup_insert_ne by done. rewrite !lookup_insert_eq. simpl.
    rewrite lookup_empty. simpl. reflexivity.
  - exists eB1. destruct HstB as (_ & Hsent & _). by split_and!.
Qed.

End SharingFacts.

(** ** The statements at concrete inputs *)

Lemma decrypt_short_header_raises_witness :
  let e := sample_fresh in
  let data := [17; 34; 51] in
  method e = aes_256_cfb /\ decipher e = None /\ (length data < 16)%nat /\
  (decrypt (L:=sample_libs) e data).2 = Raise ValueError /\
  decipher (decrypt (L:=sample_libs) e data).1 = None.
Proof.
  intros e data.
  split; [reflexivity|]. split; [reflexivity|]. split; [simpl; lia|].
  apply (decrypt_short_header_raises (L:=sample_libs) e data);
    [reflexivity | reflexivity | simpl; lia].
Defined.

Lemma decrypt_split_iv_raises_witness :
  exists e d e1 W,
    Encryptor_init (L:=sample_libs) "secret" aes_256_cfb sample_iv = Ok e /\
    Encryptor_init (L:=sample_libs) "secret" aes_256_cfb sample_iv' = Ok d /\
    encrypt (L:=sample_libs) e [104; 105] = (e1, Ok W) /\
    (decrypt_chunks (L:=sample_libs) d [W]).2 = Ok [[104; 105]] /\
    (decrypt_chunks (L:=sample_libs) d [take 15 W; take 1 (drop 15 W); drop 16 W]).2
      = Raise ValueError.
Proof.
  do 4 eexists.
  split; [reflexivity|]. split; [reflexivity|]. split; [reflexivity|].
  eapply (decrypt_split_iv_raises (L:=sample_libs) "secret" sample_iv sample_iv');
    reflexivity.
Defined.

Lemma table_cipher_roundtrip_witness :
  exists e,
    "table" ≠ aes_256_cfb /\
    Encryptor_init (L:=sample_libs) "secret" "table" sample_iv = Ok e /\
    is_bytes [0; 104; 255] /\
    _get_table (L:=sample_libs) "secret" ≡ₚ range256 /\
    exists ct, encrypt (L:=sample_libs) e [0; 104; 255] = (e, Ok ct) /\
               decrypt (L:=sample_libs) e ct = (e, Ok [0; 104; 255]).
Proof.
  eexists.
  assert (Hm : "table" ≠ aes_256_cfb) by discriminate.
  assert (Hd : is_bytes [0; 104; 255])
    by (repeat constructor; unfold is_byte; lia).
  split; [exact Hm|]. split; [reflexivity|]. split; [exact Hd|].
  apply (table_cipher_roundtrip (L:=sample_libs) "secret" "table" sample_iv);
    [exact Hm | reflexivity | exact Hd].
Defined.

Lemma sink_totals_consistent_witness :
  let calls :=
    [CallAdd 0 "a" "10.0.0.1" 4000; CallUpdate "a" 5 7; CallUpdate "b" 1 1;
     CallClose 3 "a"; CallAdd 4 "b" "10.0.0.2" 4001; CallReset 9;
     CallAdd 10 "a" "10.0.0.1" 4002] in
  add_close_once ∅ ∅ calls = true /\
  sink_consistent (sink_run (reset 0) calls) /\
  (forall cs i now a b,
      connections cs !! i = None ->
      update_traffic cs i a b = cs /\ close_connection cs now i = cs).
Proof.
  intros calls.
  assert (Hok : add_close_once ∅ ∅ calls = true) by (vm_compute; reflexivity).
  split; [exact Hok|].
  exact (sink_totals_consistent 0 calls Hok).
Defined.

Lemma relay_exit_leaves_record_active_witness :
  let s := {| encryptor := Some sample_streaming; sink := reset 0; trace := [] |} in
  let s' := (handle_tcp (L:=sample_libs) sample_relay s).2 in
  peername sample_relay = Some ("127.0.0.1", 50000) /\
  outcome_of (handle_tcp (L:=sample_libs) sample_relay s).1 ≠ Running /\
  (exists tr, trace s' = tr ++ [EvClose Sock; EvClose Remote]) /\
  open_record (client_id sample_relay) (sink s') /\
  (forall now', exists r,
      r ∈ (get_stats (sink s') now').2.2 /\
      c_id r = client_id sample_relay /\ c_status r = active /\ c_end_time r = None).
Proof.
  intros s s'.
  assert (Hout : outcome_of (handle_tcp (L:=sample_libs) sample_relay s).1 ≠ Running)
    by (vm_compute; discriminate).
  split; [reflexivity|]. split; [exact Hout|].
  exact (relay_exit_leaves_record_active (L:=sample_libs) sample_relay s
           ("127.0.0.1", 50000) eq_refl Hout).
Defined.


Lemma unsupported_command_closed_without_reply_witness :
  let env := sample_env [5; 2; 0; 1] in
  let r := handle_connection (L:=sample_libs) sample_cfg env (initial (reset 0)) in
  rx_request env = RecvData [5; 2; 0; 1] /\
  outcome_of r.1 = Finished /\
  trace r.2 = [EvRecv Sock 262; EvSend Sock [5; 0]; EvRecv Sock 4; EvClose Sock].
Proof.
  intros env r. split; [reflexivity|].
  apply (unsupported_command_closed_without_reply (L:=sample_libs)
           sample_cfg env (reset 0) sample_fresh [5; 1; 0] [5; 2; 0; 1] 2);
    [reflexivity | reflexivity | reflexivity | reflexivity | reflexivity | lia].
Defined.

(** C5 as stated fails: for the BIND request [05 02 00 01] the only bytes
    handed to [send] on the user's socket are the method selection [05 00];
    nothing with reply code 07 is sent. *)
Lemma unsupported_command_no_reply_07 :
  let env := sample_env [5; 2; 0; 1] in
  let r := handle_connection (L:=sample_libs) sample_cfg env (initial (reset 0)) in
  rx_request env = RecvData [5; 2; 0; 1] /\
  ~ exists d, EvSend Sock d ∈ trace r.2 /\ d !! 1%nat = Some 7.
Proof.
  intros env r. split; [reflexivity|].
  intros (d & Hin & Hd). subst r.
  rewrite (run_unsupported (L:=sample_libs) sample_cfg env (reset 0) sample_fresh
             [5; 1; 0] [5; 2; 0; 1] 2) in Hin;
    [|reflexivity | reflexivity | reflexivity | reflexivity | reflexivity | lia].
  simpl in Hin.
  repeat (apply elem_of_cons in Hin as [Hin|Hin]; [try discriminate|]).
  - inversion Hin; subst d. discriminate.
  - by apply elem_of_nil in Hin.
Qed.


Lemma sample_accepted_domain :
  accepted (L:=sample_libs) (sample_env [5; 1; 0; 3]) (TargetDomain 11 "example.com") 80.
Proof.
  exists [5; 1; 0], 5, 0, 3, 0, 80.
  split; [reflexivity|]. split; [reflexivity|]. split; [reflexivity|].
  split.
  { split; [reflexivity|].
    exists [101; 120; 97; 109; 112; 108; 101; 46; 99; 111; 109].
    split; [reflexivity|]. split; [reflexivity|]. split; [simpl; lia|reflexivity]. }
  split; [reflexivity|].
  unfold is_byte. split; [lia|]. split; [lia|reflexivity].
Defined.

Lemma reply_precedes_dial_witness :
  let tr := trace (handle_connection (L:=sample_libs) sample_cfg
                     (sample_env [5; 1; 0; 3]) (initial (reset 0))).2 in
  reply = [5; 0; 0; 1; 0; 0; 0; 0; 0; 0] /\
  exists pre post, tr = pre ++ EvSend Sock reply :: post /\ Forall on_sock pre.
Proof.
  apply (reply_precedes_dial (L:=sample_libs) sample_cfg (sample_env [5; 1; 0; 3])
           (reset 0) sample_fresh (TargetDomain 11 "example.com") 80);
    [reflexivity | exact sample_accepted_domain].
Defined.


Lemma shared_encryptor_crosses_tunnels_witness :
  let k := sample_digest 32 (sample_encode "secret") in
  let hdrA := [1; 127; 0; 0; 1; 0; 80] in
  let d := [104; 105] in
  let ready := SelectReady (Some {| rx := RecvData d; tx := SendOk |}) None in
  let sh :=
    run_schedule (L:=sample_libs)
      {| sh_encryptor := None; sh_sink := reset 0; sh_traces := ∅ |}
      [(0%nat, StepInit "secret" aes_256_cfb sample_iv);
       (0%nat, StepHeader hdrA SendOk);
       (1%nat, StepInit "secret" aes_256_cfb sample_iv');
       (0%nat, StepRound "140230_1700000000.5" ready)] in
  sent_on Remote (default [] (sh_traces sh !! 0%nat)) =
    [sample_iv ++ (cfb_encrypt (L:=sample_libs)
                     {| cfb_key := k; cfb_reg := sample_iv |} hdrA).2;
     sample_iv' ++ (cfb_encrypt (L:=sample_libs)
                      {| cfb_key := k; cfb_reg := sample_iv' |} d).2] /\
  exists e, sh_encryptor sh = Some e /\ iv e = Some sample_iv' /\ iv_sent e = true.
Proof.
  apply (shared_encryptor_crosses_tunnels (L:=sample_libs) "secret"
           sample_iv sample_iv' [1; 127; 0; 0; 1; 0; 80] [104; 105]
           "140230_1700000000.5" (reset 0));
    [reflexivity | reflexivity | discriminate | simpl; lia].
Defined.

(** * Further properties *)

(** ** The cipher session, besides the claims *)

Section CipherMore.

Context `{L : Libs}.

(** X1.  What a new session encrypted, in any number of calls, and a new
    session of the same password decrypts, in any number of calls of which
    the first brings at least the 16 bytes of the IV, comes out as the
    plaintext that went in. *)
Theorem roundtrip_iv_in_first_chunk pw rand rand' (chunks : list bytes)
    e d e' outs (first : bytes) (rest : list bytes) :
  Encryptor_init pw aes_256_cfb rand = Ok e ->
  Encryptor_init pw aes_256_cfb rand' = Ok d ->
  encrypt_chunks e chunks = (e', Ok outs) ->
  concat (first :: rest) = concat outs ->
  (16 <= length first)%nat ->
  exists d' plains,
    decrypt_chunks d (first :: rest) = (d', Ok plains) /\
    concat plains = concat chunks.
Proof.
  intros He Hd Hrun Hwire Hfirst.
  exact (roundtrip_chunked pw rand rand' chunks e d e' outs first rest
           He Hd Hrun Hwire Hfirst).
Qed.

(** X2.  [decrypt] stores the IV it receives in the attribute [encrypt]
    sends as its own.  On a session whose first use is a [decrypt] of at
    least 16 bytes, the first [encrypt] emits the received IV, not the one
    its cipher was built with, in front of ciphertext that was produced from
    the session's own IV. *)
Theorem decrypt_first_replaces_sent_iv pw rand (data P : bytes) e :
  Encryptor_init pw aes_256_cfb rand = Ok e ->
  (16 <= length data)%nat ->
  let c0 := {| cfb_key := sha256 (utf8_encode pw); cfb_reg := rand |} in
  (encrypt (decrypt e data).1 P).2 = Ok (take 16 data ++ (cfb_encrypt c0 P).2).
Proof.
  intros Hinit Hlen c0. apply init_aes_inv in Hinit as [_ ->].
  rewrite decrypt_first by done. simpl.
  unfold encrypt, cipher_iv_encrypt. simpl. fold c0.
  by destruct (cfb_encrypt c0 P).
Qed.

End CipherMore.

Lemma roundtrip_iv_in_first_chunk_witness :
  exists e d e' outs,
    Encryptor_init (L:=sample_libs) "secret" aes_256_cfb sample_iv = Ok e /\
    Encryptor_init (L:=sample_libs) "secret" aes_256_cfb sample_iv' = Ok d /\
    encrypt_chunks (L:=sample_libs) e [[104]; [105; 33]] = (e', Ok outs) /\
    exists d' plains,
      decrypt_chunks (L:=sample_libs) d
        [take 17 (concat outs); [nth 17 (concat outs) 0]; drop 18 (concat outs)]
        = (d', Ok plains) /\
      concat plains = [104; 105; 33].
Proof.
  do 4 eexists.
  split; [reflexivity|]. split; [reflexivity|]. split; [reflexivity|].
  eapply (roundtrip_iv_in_first_chunk (L:=sample_libs) "secret" sample_iv sample_iv'
            [[104]; [105; 33]]);
    [reflexivity | reflexivity | reflexivity | reflexivity | simpl; lia].
Defined.

Lemma decrypt_first_replaces_sent_iv_witness :
  let data := sample_iv' ++ [9; 9] in
  (16 <= length data)%nat /\
  (encrypt (L:=sample_libs) (decrypt (L:=sample_libs) sample_fresh data).1 [104; 105]).2
  = Ok (sample_iv' ++
        (cfb_encrypt (L:=sample_libs)
           {| cfb_key := sample_digest 32 (sample_encode "secret");
              cfb_reg := sample_iv |} [104; 105]).2).
Proof.
  intros data. split; [simpl; lia|].
  apply (decrypt_first_replaces_sent_iv (L:=sample_libs) "secret" sample_iv
           data [104; 105] sample_fresh); [reflexivity | simpl; lia].
Defined.

(** ** The table cipher, besides the claims *)

Section TableMore.

Context `{L : Libs}.

Lemma init_table pw meth rand e :
  meth ≠ aes_256_cfb ->
  Encryptor_init pw meth rand = Ok e ->
  String.eqb (method e) aes_256_cfb = false /\
  encrypt_table e = Some (_get_table pw) /\
  decrypt_table e = Some (maketrans (_get_table pw) range256).
Proof.
  intros Hm Hinit. unfold Encryptor_init in Hinit.
  destruct (String.eqb meth aes_256_cfb) eqn:Heq.
  { by apply String.eqb_eq in Heq. }
  inversion Hinit; subst e. by split_and!.
Qed.

Lemma feed_translate (f : Encryptor -> bytes -> Encryptor * result bytes)
    (e : Encryptor) (t : bytes) (chunks : list bytes) :
  (forall d, f e d = (e, Ok (translate t d))) ->
  feed f e chunks = (e, Ok (map (translate t) chunks)).
Proof.
  intros Hf. induction chunks as [|d chunks IH]; simpl; [done|].
  by rewrite Hf, IH.
Qed.

Lemma translate_concat (t : bytes) (l : list bytes) :
  translate t (concat l) = concat (map (translate t) l).
Proof.
  induction l as [|d l IH]; simpl; [done|].
  unfold translate in *. by rewrite map_app, IH.
Qed.

Lemma is_bytes_concat (l : list bytes) : Forall is_bytes l -> is_bytes (concat l).
Proof.
  unfold is_bytes. induction 1 as [|d l Hd _ IH]; simpl; [constructor|].
  by apply Forall_app.
Qed.

(** Translating by the decryption table and then by the table gives the
    bytes back: the two tables invert each other in both orders. *)
Lemma maketrans_translate (t d : bytes) :
  t ≡ₚ range256 -> is_bytes d ->
  translate t (translate (maketrans t range256) d) = d.
Proof.
  intros Hperm Hd. unfold translate. rewrite map_map.
  rewrite <- (map_id d) at 2. apply map_ext_Forall.
  eapply Forall_impl; [exact Hd|]. intros b Hb.
  assert (Hin : b ∈ t) by (rewrite Hperm; by apply range256_elem).
  apply list_elem_of_lookup in Hin as [i Hi].
  assert (Hlen : length t = 256%nat) by (by rewrite Hperm).
  assert (Hlt : (i < 256)%nat) by (rewrite <- Hlen; by eapply lookup_lt_Some).
  assert (Hall : Forall (fun x => 0 <= x /\ (Z.to_nat x < length range256)%nat) t).
  { apply Forall_forall. intros x Hx. rewrite Hperm in Hx.
    apply range256_elem in Hx. unfold is_byte in Hx.
    rewrite range256_length. lia. }
  assert (Hnd : NoDup t) by (rewrite Hperm; apply range256_NoDup).
  unfold maketrans.
  rewrite (nth_lookup_Some _ _ _ _
             (maketrans_fill_lookup t range256 range256 i b (Z.of_nat i)
                Hnd Hall Hi (range256_lookup i Hlt))).
  rewrite Nat2Z.id. by apply nth_lookup_Some.
Qed.

(** X3.  With a method other than ['aes-256-cfb'] the session is a
    stateless byte substitution, so chunk boundaries do not matter: what was
    encrypted in any number of calls decrypts, cut into calls in any other
    way (single bytes and empty buffers included), to the same plaintext, and
    the session object never changes. *)
Theorem table_roundtrip_any_chunking pw meth rand (e : Encryptor)
    (chunks wire : list bytes) :
  meth ≠ aes_256_cfb ->
  Encryptor_init pw meth rand = Ok e ->
  Forall is_bytes chunks ->
  exists outs,
    encrypt_chunks e chunks = (e, Ok outs) /\
    Forall2 (fun p o => length o = length p) chunks outs /\
    (concat wire = concat outs ->
     exists plains, decrypt_chunks e wire = (e, Ok plains) /\
                    concat plains = concat chunks).
Proof.
  intros Hm Hinit Hbytes.
  destruct (init_table pw meth rand e Hm Hinit) as (Hmeth & Het & Hdt).
  exists (map (translate (_get_table pw)) chunks). split; [|split].
  - apply feed_translate. intros d. unfold encrypt. rewrite Hmeth, Het. reflexivity.
  - clear. induction chunks as [|d chunks IH]; simpl; constructor; [|done].
    unfold translate. by rewrite length_map.
  - intros Hwire.
    exists (map (translate (maketrans (_get_table pw) range256)) wire). split.
    + apply feed_translate. intros d. unfold decrypt. rewrite Hmeth, Hdt. reflexivity.
    + rewrite <- (translate_concat _ wire), Hwire, <- translate_concat.
      apply translate_maketrans; [apply get_table_perm | by apply is_bytes_concat].
Qed.

(** X4.  The table cipher also inverts in the other order: with a method
    other than ['aes-256-cfb'], encrypting what [decrypt] returned gives the
    byte string back, so the decryption table is a substitution of all 256
    byte values as well. *)
Theorem table_encrypt_after_decrypt pw meth rand (e : Encryptor) (d : bytes) :
  meth ≠ aes_256_cfb ->
  Encryptor_init pw meth rand = Ok e ->
  is_bytes d ->
  exists pt, decrypt e d = (e, Ok pt) /\ encrypt e pt = (e, Ok d).
Proof.
  intros Hm Hinit Hd.
  destruct (init_table pw meth rand e Hm Hinit) as (Hmeth & Het & Hdt).
  exists (translate (maketrans (_get_table pw) range256) d).
  unfold encrypt, decrypt. rewrite Hmeth, Het, Hdt. split; [reflexivity|].
  rewrite maketrans_translate; [reflexivity | apply get_table_perm | exact Hd].
Qed.

End TableMore.

Lemma table_roundtrip_any_chunking_witness :
  exists e outs,
    "table" ≠ aes_256_cfb /\
    Encryptor_init (L:=sample_libs) "secret" "table" sample_iv = Ok e /\
    Forall is_bytes [[104; 105]; []; [33]] /\
    encrypt_chunks (L:=sample_libs) e [[104; 105]; []; [33]] = (e, Ok outs).
Proof.
  assert (Hm : "table" ≠ aes_256_cfb) by discriminate.
  assert (Hb : Forall is_bytes [[104; 105]; []; [33]])
    by (repeat constructor; unfold is_byte; lia).
  destruct (table_roundtrip_any_chunking (L:=sample_libs) "secret" "table" sample_iv
              _ [[104; 105]; []; [33]] [] Hm eq_refl Hb) as (outs & Hrun & _).
  eexists _, outs. split; [exact Hm|]. split; [reflexivity|]. split; [exact Hb|].
  exact Hrun.
Defined.

Lemma table_encrypt_after_decrypt_witness :
  exists e pt,
    "table" ≠ aes_256_cfb /\
    Encryptor_init (L:=sample_libs) "secret" "table" sample_iv = Ok e /\
    is_bytes [0; 104; 255] /\
    decrypt (L:=sample_libs) e [0; 104; 255] = (e, Ok pt) /\
    encrypt (L:=sample_libs) e pt = (e, Ok [0; 104; 255]).
Proof.
  assert (Hm : "table" ≠ aes_256_cfb) by discriminate.
  assert (Hb : is_bytes [0; 104; 255])
    by (repeat constructor; unfold is_byte; lia).
  destruct (table_encrypt_after_decrypt (L:=sample_libs) "secret" "table" sample_iv
              _ [0; 104; 255] Hm eq_refl Hb) as (pt & Hdec & Henc).
  eexists _, pt. split; [exact Hm|]. split; [reflexivity|]. split; [exact Hb|].
  split; [exact Hdec | exact Henc].
Defined.

(** ** The accounting sink, besides the claims *)

Section SinkMore.

Implicit Types (m : gmap string connection) (cs : ConnectionStats).

Lemma run_counters calls : forall cs acc,
  total_connections (cs_stats cs) = acc ->
  active_connections (cs_stats cs) <= acc ->
  total_connections (cs_stats (sink_run cs calls)) = count_adds acc calls /\
  active_connections (cs_stats (sink_run cs calls))
    <= total_connections (cs_stats (sink_run cs calls)).
Proof.
  unfold sink_run.
  induction calls as [|c calls IH]; intros cs acc Htot Hact; simpl.
  { lia. }
  destruct c as [now i h p|i a b|now i|now]; simpl.
  - apply IH; simpl; lia.
  - apply IH; unfold update_traffic; destruct (connections cs !! i); simpl; lia.
  - apply IH; unfold close_connection; destruct (connections cs !! i); simpl; lia.
  - apply IH; simpl; lia.
Qed.

(** X5.  After any sequence of calls on a new sink, [total_connections] is
    the number of [add_connection] calls since the last [reset], and
    [active_connections] never exceeds it. *)
Theorem sink_counts_adds (now0 : Z) (calls : list sink_call) :
  let cs := sink_run (reset now0) calls in
  total_connections (cs_stats cs) = count_adds 0 calls /\
  active_connections (cs_stats cs) <= total_connections (cs_stats cs).
Proof. apply run_counters; simpl; lia. Qed.

Lemma step_keeps_wf cs c :
  map_Forall record_wf (connections cs) ->
  map_Forall record_wf (connections (sink_step cs c)).
Proof.
  intros Hwf. destruct c as [now i h p|i a b|now i|now]; simpl.
  - apply map_Forall_insert_2; [|done]. split; [done|]. by left.
  - unfold update_traffic. destruct (connections cs !! i) as [r|] eqn:E; [|done].
    simpl. apply map_Forall_insert_2; [|done].
    destruct (Hwf i r E) as [Hid Hst]. split; [done|]. exact Hst.
  - unfold close_connection. destruct (connections cs !! i) as [r|] eqn:E; [|done].
    simpl. apply map_Forall_insert_2; [|done].
    destruct (Hwf i r E) as [Hid _]. split; [done|]. right. split; [done|].
    by eexists.
  - apply map_Forall_empty.
Qed.

Lemma sink_records_well_formed_aux (now0 : Z) (calls : list sink_call) :
  map_Forall record_wf (connections (sink_run (reset now0) calls)).
Proof.
  unfold sink_run.
  assert (H0 : map_Forall record_wf (connections (reset now0)))
    by apply map_Forall_empty.
  revert H0. generalize (reset now0).
  induction calls as [|c calls IH]; intros cs Hwf; simpl; [done|].
  apply IH. by apply step_keeps_wf.
Qed.

(** X6.  After any sequence of calls on a new sink, every stored record
    carries the id it is stored under, and it has an end time exactly when
    its status is closed: an active record has none. *)
Theorem sink_records_well_formed (now0 : Z) (calls : list sink_call) :
  map_Forall record_wf (connections (sink_run (reset now0) calls)).
Proof. apply sink_records_well_formed_aux. Qed.

Lemma step_keeps_covers cs c :
  counts_lengths c -> covers cs -> covers (sink_step cs c).
Proof.
  intros Hc (Hin & Hout & Hnn). unfold covers, sum_bytes_in, sum_bytes_out in *.
  destruct c as [now i h p|i a b|now i|now]; simpl in *.
  - split_and!.
    + destruct (connections cs !! i) as [r0|] eqn:E.
      * rewrite (map_sum_insert_existing _ _ _ r0) by done. simpl.
        destruct (Hnn i r0 E). lia.
      * rewrite map_sum_insert_fresh by done. simpl. lia.
    + destruct (connections cs !! i) as [r0|] eqn:E.
      * rewrite (map_sum_insert_existing _ _ _ r0) by done. simpl.
        destruct (Hnn i r0 E). lia.
      * rewrite map_sum_insert_fresh by done. simpl. lia.
    + apply map_Forall_insert_2; [simpl; lia | done].
  - unfold update_traffic. destruct (connections cs !! i) as [r|] eqn:E; [|done].
    destruct (Hnn i r E). simpl. split_and!.
    + rewrite (map_sum_insert_existing _ _ _ r) by done. simpl. lia.
    + rewrite (map_sum_insert_existing _ _ _ r) by done. simpl. lia.
    + apply map_Forall_insert_2; [simpl; lia | done].
  - unfold close_connection. destruct (connections cs !! i) as [r|] eqn:E; [|done].
    destruct (Hnn i r E). simpl. split_and!.
    + rewrite (map_sum_insert_existing _ _ _ r) by done. simpl. lia.
    + rewrite (map_sum_insert_existing _ _ _ r) by done. simpl. lia.
    + apply map_Forall_insert_2; [simpl; lia | done].
  - rewrite !map_sum_empty. split_and!; [lia | lia | apply map_Forall_empty].
Qed.

(** X7.  Whatever the call sequence on a new sink, ids added twice and
    closed twice included, as long as the counts passed to [update_traffic]
    are not negative (the relays pass lengths), the totals never fall below
    the sums over the stored records: bytes of an overwritten record stay in
    the totals. *)
Theorem sink_totals_cover_records (now0 : Z) (calls : list sink_call) :
  Forall counts_lengths calls ->
  let cs := sink_run (reset now0) calls in
  sum_bytes_in (connections cs) <= total_bytes_in (cs_stats cs) /\
  sum_bytes_out (connections cs) <= total_bytes_out (cs_stats cs).
Proof.
  intros Hcalls cs.
  assert (H : covers cs); [|by destruct H as (? & ? & _)].
  subst cs. unfold sink_run.
  assert (H0 : covers (reset now0)).
  { unfold covers, sum_bytes_in, sum_bytes_out. simpl. rewrite !map_sum_empty.
    split_and!; [lia | lia | apply map_Forall_empty]. }
  revert H0. generalize (reset now0).
  induction Hcalls as [|c calls Hc _ IH]; intros cs0 H0; simpl; [done|].
  apply IH. by apply step_keeps_covers.
Qed.

(** X8.  [close_connection] does not look at the status: on a consistent
    sink, closing an id whose record is already closed leaves the record
    closed, with the new end time, and decrements [active_connections] once
    more, to one below the number of active records. *)
Theorem close_again_undercounts cs (now : Z) (i : string) (r : connection) :
  sink_consistent cs ->
  connections cs !! i = Some r ->
  c_status r = closed ->
  let cs' := close_connection cs now i in
  connections cs' !! i = Some (mark_closed now r) /\
  active_connections (cs_stats cs') = count_active (connections cs') - 1.
Proof.
  intros (_ & _ & Hact) Hr Hst cs'. subst cs'. unfold close_connection.
  rewrite Hr. simpl. split; [apply lookup_insert_eq|].
  unfold count_active in *.
  rewrite (map_sum_insert_existing _ _ _ r) by done.
  change (active_flag (mark_closed now r)) with 0.
  assert (active_flag r = 0) by (unfold active_flag; by rewrite Hst).
  lia.
Qed.

End SinkMore.

Lemma sink_totals_cover_records_witness :
  let calls :=
    [CallAdd 0 "a" "10.0.0.1" 4000; CallUpdate "a" 5 7;
     CallAdd 1 "a" "10.0.0.1" 4000; CallClose 2 "a"; CallClose 3 "a"] in
  let cs := sink_run (reset 0) calls in
  Forall counts_lengths calls /\
  sum_bytes_in (connections cs) <= total_bytes_in (cs_stats cs) /\
  sum_bytes_out (connections cs) <= total_bytes_out (cs_stats cs).
Proof.
  intros calls cs.
  assert (Hc : Forall counts_lengths calls) by (repeat constructor; simpl; lia).
  split; [exact Hc|]. exact (sink_totals_cover_records 0 calls Hc).
Defined.

Lemma close_again_undercounts_witness :
  let cs := sink_run (reset 0) [CallAdd 0 "a" "10.0.0.1" 4000; CallClose 2 "a"] in
  let cs' := close_connection cs 3 "a" in
  sink_consistent cs /\
  (exists r, connections cs' !! "a" = Some r /\ c_end_time r = Some 3) /\
  active_connections (cs_stats cs') = count_active (connections cs') - 1.
Proof.
  intros cs cs'.
  assert (Hcons : sink_consistent cs).
  { apply (tracked_run [CallAdd 0 "a" "10.0.0.1" 4000; CallClose 2 "a"] ∅ ∅);
      [apply tracked_reset | vm_compute; reflexivity]. }
  assert (Hr : connections cs !! "a" =
               Some (mark_closed 2
                       {| c_id := "a"; c_host := "10.0.0.1"; c_port := 4000;
                          c_start_time := 0; c_bytes_in := 0; c_bytes_out := 0;
                          c_status := active; c_end_time := None |})).
  { subst cs. unfold sink_run. simpl. unfold close_connection. simpl.
    rewrite lookup_insert_eq. simpl. apply lookup_insert_eq. }
  destruct (close_again_undercounts cs 3 "a" _ Hcons Hr eq_refl) as [Hrec Hcount].
  split; [exact Hcons|]. split; [|exact Hcount].
  eexists. split; [exact Hrec | reflexivity].
Defined.

(** ** [send_all], call by call *)

Section SendAllFacts.

Lemma send_all_loop_rest (data : bytes) (rets : list send_ret) :
  forall (bytes_sent n : Z) (log : list (bytes * Z)),
    0 <= bytes_sent <= Z.of_nat (length data) ->
    send_all_loop data bytes_sent rets = (Val n, log) ->
    kernel_like log ->
    n = Z.of_nat (length data) /\ taken log = drop (Z.to_nat bytes_sent) data.
Proof.
  induction rets as [|[r|] rets IH]; intros bytes_sent n log Hb Hrun Hk;
    simpl in Hrun; [done| |done].
  unfold slice_from in Hrun. destruct (r <? 0) eqn:Hneg.
  { inversion Hrun; subst. apply Forall_cons in Hk as [Hr _]. simpl in Hr.
    apply Z.ltb_lt in Hneg. lia. }
  apply Z.ltb_ge in Hneg.
  destruct (bytes_sent + r =? Z.of_nat (length data)) eqn:Hall.
  - apply Z.eqb_eq in Hall. inversion Hrun; subst. split; [done|].
    unfold taken. simpl. rewrite app_nil_r. apply take_ge.
    rewrite length_drop. lia.
  - destruct (send_all_loop data (bytes_sent + r) rets) as [res log'] eqn:Hrec.
    inversion Hrun; subst res log; clear Hrun.
    apply Forall_cons in Hk as [Hr Hk]. simpl in Hr.
    rewrite length_drop in Hr.
    assert (Hb' : 0 <= bytes_sent + r <= Z.of_nat (length data)) by lia.
    destruct (IH _ _ _ Hb' Hrec Hk) as [Hn Htaken]. split; [done|].
    unfold taken in *. simpl. rewrite Htaken.
    replace (Z.to_nat (bytes_sent + r)) with (Z.to_nat bytes_sent + Z.to_nat r)%nat
      by lia.
    rewrite <- drop_drop. apply take_drop.
Qed.

(** X9.  When [send_all] returns a count, and every [send] took no more
    than it was offered, the count is [len(data)] and the pieces the kernel
    took, in the order of the calls, are exactly [data]: each call offers
    what is still unsent, nothing is sent twice and nothing is skipped. *)
Theorem send_all_sends_everything (data : bytes) (rets : list send_ret)
    (n : Z) (log : list (bytes * Z)) :
  send_all_loop data 0 rets = (Val n, log) ->
  kernel_like log ->
  n = Z.of_nat (length data) /\ taken log = data.
Proof.
  intros Hrun Hk.
  assert (H0 : 0 <= 0 <= Z.of_nat (length data)) by lia.
  destruct (send_all_loop_rest data rets 0 n log H0 Hrun Hk) as [Hn Ht].
  split; [exact Hn|]. exact Ht.
Qed.

End SendAllFacts.

Lemma send_all_sends_everything_witness :
  let data := [10; 20; 30; 40; 50] in
  let rets := [Sent 2; Sent 0; Sent 3; Sent 1] in
  let log := [(data, 2); ([30; 40; 50], 0); ([30; 40; 50], 3)] in
  send_all_loop data 0 rets = (Val 5, log) /\ kernel_like log /\
  5 = Z.of_nat (length data) /\ taken log = data.
Proof.
  intros data rets log.
  assert (Hrun : send_all_loop data 0 rets = (Val 5, log)) by reflexivity.
  assert (Hk : kernel_like log) by (repeat constructor; simpl; lia).
  split; [exact Hrun|]. split; [exact Hk|].
  exact (send_all_sends_everything data rets 5 log Hrun Hk).
Defined.

(** ** The client's front-end, besides the claims *)

Section FrontEndMore.

Context `{L : Libs}.

(** The state in which an accepted request leaves the handler when the
    reply is due. *)
Lemma run_accepted cfg env cs e g ver rsv atyp t hi lo :
  Encryptor_init (password cfg) (cfg_method cfg) (rand_iv env) = Ok e ->
  rx_greeting env = RecvData g -> tx_method env = SendOk ->
  rx_request env = RecvData [ver; 1; rsv; atyp] ->
  names_target env atyp t ->
  rx_port env = RecvData [hi; lo] ->
  handle_connection cfg env (initial cs) =
  finally
    (try_socket_error
       (fun _ =>
          bind (send Sock reply (tx_reply env)) (fun _ =>
          try_socket_error
            (bind (connect (HostName (server_addr cfg)) (server_port cfg) (dial env))
               (fun _ => bind (send_header (header t [hi; lo]) (tx_header env))
               (fun _ => handle_tcp (relay env))))
            return_)
            {| encryptor := Some e; sink := cs;
               trace := ([EvRecv Sock 262; EvSend Sock [5; 0]; EvRecv Sock 4]
                         ++ addr_reads t) ++ [EvRecv Sock 2] |})
       (ret tt))
    (close Sock) (initial cs).
Proof.
  intros Hinit Hg Hm Hreq Ht Hport.
  unfold handle_connection, finally, try_socket_error.
  rewrite (bind_val _ _ _ tt (set_encryptor e (initial cs)))
    by (unfold init_encryptor; by rewrite Hinit).
  rewrite Hg, Hm, Hreq, Hport.
  do 4 (erewrite bind_val by reflexivity).
  change (negb (1 =? 1)) with false. cbv iota.
  erewrite bind_val by reflexivity.
  erewrite bind_val by (by apply read_target_run).
  do 2 (erewrite bind_val by reflexivity).
  reflexivity.
Qed.

(** X10.  A CONNECT request whose address type is neither 1 nor 3 (IPv6
    included) is dropped like an unsupported command: nothing is sent in
    answer to it, no connection to the server is opened, the user's socket is
    closed and the handler returns. *)
Theorem unsupported_address_type_closed cfg env cs e g data atyp :
  Encryptor_init (password cfg) (cfg_method cfg) (rand_iv env) = Ok e ->
  rx_greeting env = RecvData g -> tx_method env = SendOk ->
  rx_request env = RecvData data ->
  data !! 1%nat = Some 1 -> data !! 3%nat = Some atyp ->
  atyp ≠ 1 -> atyp ≠ 3 ->
  let r := handle_connection cfg env (initial cs) in
  outcome_of r.1 = Finished /\
  trace r.2 = [EvRecv Sock 262; EvSend Sock [5; 0]; EvRecv Sock 4; EvClose Sock].
Proof.
  intros Hinit Hg Hm Hreq Hmode Hatyp H1 H3 r. subst r.
  unfold handle_connection, finally, try_socket_error.
  rewrite (bind_val _ _ _ tt (set_encryptor e (initial cs)))
    by (unfold init_encryptor; by rewrite Hinit).
  rewrite Hg, Hm, Hreq.
  do 3 (erewrite bind_val by reflexivity).
  erewrite (bind_val _ _ _ 1).
  2:{ unfold index. rewrite lookup_take_lt by (simpl; lia). by rewrite Hmode. }
  change (negb (1 =? 1)) with false. cbv iota.
  erewrite (bind_val _ _ _ atyp).
  2:{ unfold index. rewrite lookup_take_lt by (simpl; lia). by rewrite Hatyp. }
  unfold read_target.
  rewrite (proj2 (Z.eqb_neq atyp 1) H1), (proj2 (Z.eqb_neq atyp 3) H3).
  by split.
Qed.

(** X11.  A request of fewer than two bytes, an immediate end of stream
    included, makes [data[1]] raise [IndexError], which no handler catches:
    the thread dies with it, after the user's socket has been closed and
    without anything but the method selection having been sent. *)
Theorem truncated_request_raises cfg env cs e g data :
  Encryptor_init (password cfg) (cfg_method cfg) (rand_iv env) = Ok e ->
  rx_greeting env = RecvData g -> tx_method env = SendOk ->
  rx_request env = RecvData data ->
  (length data < 2)%nat ->
  let r := handle_connection cfg env (initial cs) in
  outcome_of r.1 = Died IndexError /\
  trace r.2 = [EvRecv Sock 262; EvSend Sock [5; 0]; EvRecv Sock 4; EvClose Sock].
Proof.
  intros Hinit Hg Hm Hreq Hlen r. subst r.
  unfold handle_connection, finally, try_socket_error.
  rewrite (bind_val _ _ _ tt (set_encryptor e (initial cs)))
    by (unfold init_encryptor; by rewrite Hinit).
  rewrite Hg, Hm, Hreq.
  do 3 (erewrite bind_val by reflexivity).
  assert (Hnone : take (Z.to_nat 4) data !! 1%nat = None).
  { apply lookup_ge_None. rewrite length_take. lia. }
  unfold bind at 1, index. rewrite Hnone. by split.
Qed.

(** X12.  Whenever the handler ends, however it ends, the last thing it has
    done is close the user's socket, and a [socket.error] never leaves it:
    every one is caught and logged. *)
Theorem handle_connection_ends_closed cfg env (s : state) :
  outcome_of (handle_connection cfg env s).1 ≠ Running ->
  (handle_connection cfg env s).1 ≠ Exc SocketError /\
  exists tr, trace (handle_connection cfg env s).2 = tr ++ [EvClose Sock].
Proof.
  unfold handle_connection, finally, try_socket_error, close, emit, ret.
  match goal with
  | |- context [let (_, _) := ?m s in _] => destruct (m s) as [[a|[]| | |] s']
  end; simpl; intros Hout; try done; (split; [done|]); by eexists.
Qed.

(** X13.  When the server cannot be reached, the user has already been
    told the connection succeeded: for an accepted request whose dial raises
    [socket.error] the trace is the handshake, the success reply, the failed
    [connect] and the close of the user's socket; nothing is sent to the
    server, no record is added to the sink, and the handler returns. *)
Theorem dial_failure_after_reply cfg env cs e t port :
  Encryptor_init (password cfg) (cfg_method cfg) (rand_iv env) = Ok e ->
  accepted env t port ->
  tx_reply env = SendOk -> dial env = SendErr ->
  let r := handle_connection cfg env (initial cs) in
  outcome_of r.1 = Finished /\
  sink r.2 = cs /\
  trace r.2 =
    [EvRecv Sock 262; EvSend Sock [5; 0]; EvRecv Sock 4] ++ addr_reads t ++
    [EvRecv Sock 2; EvSend Sock reply;
     EvConnect (HostName (server_addr cfg)) (server_port cfg); EvClose Sock].
Proof.
  intros Hinit Hacc Hrep Hdial r. subst r.
  destruct Hacc as (g & ver & rsv & atyp & hi & lo &
                    Hg & Hm & Hreq & Ht & Hport & _).
  rewrite (run_accepted cfg env cs e g ver rsv atyp t hi lo
             Hinit Hg Hm Hreq Ht Hport).
  unfold finally, try_socket_error. rewrite Hrep, Hdial.
  erewrite bind_val by reflexivity.
  unfold bind, connect, emit, raise, return_, close, record_event. simpl.
  split; [done|]. split; [done|]. by rewrite <- !app_assoc.
Qed.

(** X14.  When the header cannot be sent after the server was reached, the
    handler returns after closing the user's socket only: the socket it
    opened to the server is never closed by it. *)
Theorem header_failure_leaves_remote_open cfg env cs e e' g ver rsv atyp t hi lo out :
  Encryptor_init (password cfg) (cfg_method cfg) (rand_iv env) = Ok e ->
  rx_greeting env = RecvData g -> tx_method env = SendOk ->
  rx_request env = RecvData [ver; 1; rsv; atyp] ->
  names_target env atyp t ->
  rx_port env = RecvData [hi; lo] ->
  encrypt e (header t [hi; lo]) = (e', Ok out) ->
  tx_reply env = SendOk -> dial env = SendOk -> tx_header env = SendErr ->
  let r := handle_connection cfg env (initial cs) in
  outcome_of r.1 = Finished /\
  trace r.2 =
    [EvRecv Sock 262; EvSend Sock [5; 0]; EvRecv Sock 4] ++ addr_reads t ++
    [EvRecv Sock 2; EvSend Sock reply;
     EvConnect (HostName (server_addr cfg)) (server_port cfg);
     EvSend Remote out; EvClose Sock] /\
  EvClose Remote ∉ trace r.2.
Proof.
  intros Hinit Hg Hm Hreq Ht Hport Henc Hrep Hdial Htx r. subst r.
  rewrite (run_accepted cfg env cs e g ver rsv atyp t hi lo
             Hinit Hg Hm Hreq Ht Hport).
  unfold finally, try_socket_error. rewrite Hrep, Hdial, Htx.
  do 2 (erewrite bind_val by reflexivity).
  unfold send_header. rewrite bind_assoc.
  erewrite (bind_val _ _ _ out).
  2:{ unfold self_encrypt, with_encryptor. simpl. rewrite Henc. reflexivity. }
  unfold bind, send, emit, raise, return_, close, record_event, set_encryptor. simpl.
  split; [done|]. rewrite <- !app_assoc. simpl. split; [done|].
  intros Hin. destruct t; simpl in Hin;
    repeat (apply elem_of_cons in Hin as [Hin|Hin]; [discriminate|]);
    by apply elem_of_nil in Hin.
Qed.

End FrontEndMore.

Lemma unsupported_address_type_closed_witness :
  let env := sample_env [5; 1; 0; 4] in
  let r := handle_connection (L:=sample_libs) sample_cfg env (initial (reset 0)) in
  rx_request env = RecvData [5; 1; 0; 4] /\
  outcome_of r.1 = Finished /\
  trace r.2 = [EvRecv Sock 262; EvSend Sock [5; 0]; EvRecv Sock 4; EvClose Sock].
Proof.
  intros env r. split; [reflexivity|].
  apply (unsupported_address_type_closed (L:=sample_libs) sample_cfg env (reset 0)
           sample_fresh [5; 1; 0] [5; 1; 0; 4] 4);
    [reflexivity | reflexivity | reflexivity | reflexivity | reflexivity
     | reflexivity | lia | lia].
Defined.

Lemma truncated_request_raises_witness :
  let env := sample_env [] in
  let r := handle_connection (L:=sample_libs) sample_cfg env (initial (reset 0)) in
  rx_request env = RecvData [] /\
  outcome_of r.1 = Died IndexError /\
  trace r.2 = [EvRecv Sock 262; EvSend Sock [5; 0]; EvRecv Sock 4; EvClose Sock].
Proof.
  intros env r. split; [reflexivity|].
  apply (truncated_request_raises (L:=sample_libs) sample_cfg env (reset 0)
           sample_fresh [5; 1; 0] []);
    [reflexivity | reflexivity | reflexivity | reflexivity | simpl; lia].
Defined.

Lemma handle_connection_ends_closed_witness :
  let r := handle_connection (L:=sample_libs) sample_cfg (sample_env [5; 1; 0; 1])
             (initial (reset 0)) in
  outcome_of r.1 ≠ Running /\
  r.1 ≠ Exc SocketError /\
  exists tr, trace r.2 = tr ++ [EvClose Sock].
Proof.
  intros r.
  assert (Hout : outcome_of r.1 ≠ Running) by (vm_compute; discriminate).
  split; [exact Hout|].
  exact (handle_connection_ends_closed (L:=sample_libs) sample_cfg
           (sample_env [5; 1; 0; 1]) (initial (reset 0)) Hout).
Defined.

Lemma sample_failing_accepted d h :
  accepted (L:=sample_libs) (sample_env_failing [5; 1; 0; 1] d h)
    (TargetIPv4 [127; 0; 0; 1]) 80.
Proof.
  exists [5; 1; 0], 5, 0, 1, 0, 80.
  split; [reflexivity|]. split; [reflexivity|]. split; [reflexivity|].
  split; [by split_and!|]. split; [reflexivity|].
  unfold is_byte. split; [lia|]. split; [lia|reflexivity].
Defined.

Lemma dial_failure_after_reply_witness :
  let env := sample_env_failing [5; 1; 0; 1] SendErr SendOk in
  let r := handle_connection (L:=sample_libs) sample_cfg env (initial (reset 0)) in
  dial env = SendErr /\
  outcome_of r.1 = Finished /\
  sink r.2 = reset 0 /\
  trace r.2 =
    [EvRecv Sock 262; EvSend Sock [5; 0]; EvRecv Sock 4; EvRecv Sock 4;
     EvRecv Sock 2; EvSend Sock reply;
     EvConnect (HostName "198.51.100.7") 8388; EvClose Sock].
Proof.
  intros env r. split; [reflexivity|].
  apply (dial_failure_after_reply (L:=sample_libs) sample_cfg env (reset 0)
           sample_fresh (TargetIPv4 [127; 0; 0; 1]) 80);
    [reflexivity | apply sample_failing_accepted | reflexivity | reflexivity].
Defined.

Lemma header_failure_leaves_remote_open_witness :
  let env := sample_env_failing [5; 1; 0; 1] SendOk SendErr in
  let r := handle_connection (L:=sample_libs) sample_cfg env (initial (reset 0)) in
  tx_header env = SendErr /\
  outcome_of r.1 = Finished /\
  EvConnect (HostName "198.51.100.7") 8388 ∈ trace r.2 /\
  EvClose Remote ∉ trace r.2.
Proof.
  intros env r. split; [reflexivity|].
  pose (p := encrypt (L:=sample_libs) sample_fresh
               (header (L:=sample_libs) (TargetIPv4 [127; 0; 0; 1]) [0; 80])).
  destruct (header_failure_leaves_remote_open (L:=sample_libs) sample_cfg env
              (reset 0) sample_fresh p.1 [5; 1; 0] 5 0 1
              (TargetIPv4 [127; 0; 0; 1]) 0 80
              (match p.2 with Ok o => o | Raise _ => [] end))
    as (Hout & Htr & Hno);
    [reflexivity | reflexivity | reflexivity | reflexivity | by split_and!
     | reflexivity | reflexivity | reflexivity | reflexivity | reflexivity |].
  split; [exact Hout|]. split; [|exact Hno].
  subst r. rewrite Htr. simpl. do 6 right. left.
Defined.

(** ** The client's relay, besides the claims *)

Section RelayMore.

Context `{L : Libs}.

(** X15.  The first buffer the server sends back ends the tunnel.  It
    carries the IV, so the plaintext is 16 bytes shorter than what was read;
    the relay compares the count [send_all] returns for the plaintext with
    the length of what was read and raises, after the plaintext has gone to
    the user in full and before [bytes_in] is counted. *)
Theorem first_server_chunk_ends_tunnel (cid : string) (s : state) e (data : bytes) :
  encryptor s = Some e ->
  method e = aes_256_cfb -> decipher e = None ->
  (16 <= length data <= 4096)%nat ->
  let plain := (cfb_decrypt {| cfb_key := key e; cfb_reg := take 16 data |}
                  (drop 16 data)).2 in
  let r := client_round cid
             (SelectReady None (Some {| rx := RecvData data; tx := SendOk |})) s in
  r.1 = Exc SendFailed /\
  trace r.2 = trace s ++ [EvRecv Remote 4096; EvSend Sock plain] /\
  sink r.2 = sink s.
Proof.
  intros He Hm Hd Hlen plain r. subst r plain.
  assert (Hpos : (len data <=? 0) = false).
  { apply Z.leb_gt. unfold len. lia. }
  unfold client_round, bind, recv, self_decrypt, with_encryptor,
    send_all, on_sink, emit, ret, raise. simpl.
  rewrite (take_ge data) by (simpl; lia). rewrite Hpos. simpl.
  rewrite He. rewrite decrypt_first by (done || lia). simpl.
  assert (Hres : (len (cfb_decrypt {| cfb_key := key e; cfb_reg := take 16 data |}
                         (drop 16 data)).2 <? len data) = true).
  { apply Z.ltb_lt. unfold len. rewrite cfb_decrypt_length, length_drop. lia. }
  rewrite Hres. simpl. split; [done|]. split; [|done].
  by rewrite <- app_assoc.
Qed.

(** One round in which the user's socket delivers [d] to an established
    session. *)
Lemma upload_round cid s e c (d : bytes) :
  encryptor s = Some e -> streaming_out e c ->
  d ≠ [] -> (length d <= 4096)%nat ->
  client_round cid (SelectReady (Some {| rx := RecvData d; tx := SendOk |}) None) s =
  (Val tt,
   {| encryptor := Some (set_cipher_iv e (cfb_encrypt c d).1);
      sink := update_traffic (sink s) cid 0 (len (cfb_encrypt c d).2);
      trace := trace s ++ [EvRecv Sock 4096; EvSend Remote (cfb_encrypt c d).2] |}).
Proof.
  intros He Hst Hne Hlen.
  assert (Hpos : (len d <=? 0) = false).
  { apply Z.leb_gt. unfold len. destruct d; [done|]. simpl. lia. }
  assert (Hres : (len (cfb_encrypt c d).2 <? len d) = false).
  { apply Z.ltb_ge. unfold len. rewrite cfb_encrypt_length. lia. }
  unfold client_round, bind, recv, self_encrypt, with_encryptor,
    send_all, on_sink, emit, ret. simpl.
  rewrite (take_ge d) by (simpl; lia). rewrite Hpos. simpl.
  rewrite He, (encrypt_streaming e c d Hst). simpl. rewrite Hres. simpl.
  unfold set_sink, set_encryptor, record_event. simpl.
  by rewrite <- app_assoc.
Qed.

Lemma upload_rounds cid (ds : list bytes) : forall s e c r,
  encryptor s = Some e -> streaming_out e c ->
  connections (sink s) !! cid = Some r ->
  Forall (fun d => d ≠ [] /\ (length d <= 4096)%nat) ds ->
  exists s' r',
    relay_loop (client_round cid) (uploads ds) s = (Blocked, s') /\
    concat (sent_on Remote (trace s'))
      = concat (sent_on Remote (trace s)) ++ (cfb_encrypt c (concat ds)).2 /\
    connections (sink s') !! cid = Some r' /\
    c_bytes_out r' = c_bytes_out r + len (concat ds) /\
    c_bytes_in r' = c_bytes_in r.
Proof.
  induction ds as [|d ds IH]; intros s e c r He Hst Hr Hds.
  - exists s, r. simpl. rewrite app_nil_r. split_and!; try done.
    unfold len. simpl. lia.
  - apply Forall_cons in Hds as [[Hne Hlen] Hds].
    change (uploads (d :: ds))
      with (SelectReady (Some {| rx := RecvData d; tx := SendOk |}) None :: uploads ds).
    cbn [relay_loop]. rewrite (upload_round cid s e c d He Hst Hne Hlen).
    set (s1 := {| encryptor := _; sink := _; trace := _ |}).
    assert (Hr1 : connections (sink s1) !! cid
                  = Some (add_traffic 0 (len (cfb_encrypt c d).2) r)).
    { subst s1. simpl. unfold update_traffic. rewrite Hr. simpl.
      apply lookup_insert_eq. }
    destruct (IH s1 _ _ _ eq_refl (streaming_out_step e c _ Hst) Hr1 Hds)
      as (s' & r' & Hrun & Hsent & Hr' & Hout & Hin).
    exists s', r'. rewrite Hrun. split; [done|].
    split; [|split; [done|split]].
    + rewrite Hsent. subst s1. simpl.
      rewrite sent_on_app, concat_app. simpl.
      rewrite cfb_encrypt_app. simpl. rewrite app_nil_r.
      by rewrite <- app_assoc.
    + rewrite Hout. simpl. unfold len.
      rewrite cfb_encrypt_length, length_app. lia.
    + rewrite Hin. simpl. lia.
Qed.

(** X16.  The upload direction keeps the stream in order: when the user's
    socket delivers buffers one after the other to an established session,
    what the relay has sent to the server, taken together, grows by exactly
    the ciphertext of the buffers' concatenation from the session's cipher,
    the record's [bytes_out] grows by their total length and [bytes_in] is
    untouched; the relay then waits in [select]. *)
Theorem upload_keeps_stream_order cid (ds : list bytes) s e c (r : connection) :
  encryptor s = Some e -> streaming_out e c ->
  connections (sink s) !! cid = Some r ->
  Forall (fun d => d ≠ [] /\ (length d <= 4096)%nat) ds ->
  exists s' r',
    relay_loop (client_round cid) (uploads ds) s = (Blocked, s') /\
    concat (sent_on Remote (trace s'))
      = concat (sent_on Remote (trace s)) ++ (cfb_encrypt c (concat ds)).2 /\
    connections (sink s') !! cid = Some r' /\
    c_bytes_out r' = c_bytes_out r + len (concat ds) /\
    c_bytes_in r' = c_bytes_in r.
Proof. apply upload_rounds. Qed.

(** X17.  An end of stream on the user's socket ends the relay at once:
    the round stops before the server's socket is looked at, even when it is
    readable, later rounds never happen, and both sockets are closed; the
    other direction is not drained. *)
Theorem user_eof_ends_relay (env : relay_env) (s : state) hp tx0 remote_leg rest :
  peername env = Some hp ->
  rounds env = SelectReady (Some {| rx := RecvData []; tx := tx0 |}) remote_leg :: rest ->
  let r := handle_tcp env s in
  outcome_of r.1 = Finished /\
  trace r.2 = trace s ++ [EvRecv Sock 4096; EvClose Sock; EvClose Remote] /\
  encryptor r.2 = encryptor s /\
  sink r.2 = add_connection (sink s) (now env) (client_id env) hp.1 hp.2.
Proof.
  intros Hpeer Hrounds r. subst r.
  rewrite (handle_tcp_run env s hp Hpeer), Hrounds. simpl.
  unfold record_event. simpl. split; [done|]. split; [|done].
  by rewrite <- !app_assoc.
Qed.

End RelayMore.

Lemma first_server_chunk_ends_tunnel_witness :
  let s := {| encryptor := Some sample_fresh; sink := reset 0; trace := [] |} in
  let data := sample_iv' ++ [1; 2; 3] in
  let r := client_round (L:=sample_libs) "140230_1700000000.5"
             (SelectReady None (Some {| rx := RecvData data; tx := SendOk |})) s in
  (16 <= length data <= 4096)%nat /\
  r.1 = Exc SendFailed /\
  (exists plain, length plain = 3%nat /\
                 trace r.2 = [EvRecv Remote 4096; EvSend Sock plain]) /\
  sink r.2 = reset 0.
Proof.
  intros s data r.
  assert (Hlen : (16 <= length data <= 4096)%nat) by (simpl; lia).
  destruct (first_server_chunk_ends_tunnel (L:=sample_libs) "140230_1700000000.5"
              s sample_fresh data eq_refl eq_refl eq_refl Hlen)
    as (Hres & Htr & Hsink).
  split; [exact Hlen|]. split; [exact Hres|]. split; [|exact Hsink].
  eexists. split; [|exact Htr]. reflexivity.
Defined.

Lemma upload_keeps_stream_order_witness :
  let cid := "140230_1700000000.5" in
  let r := {| c_id := cid; c_host := "127.0.0.1"; c_port := 50000;
              c_start_time := 1700000000; c_bytes_in := 0; c_bytes_out := 23;
              c_status := active; c_end_time := None |} in
  let s := {| encryptor := Some sample_streaming;
              sink := {| start_time := 0; connections := {[cid := r]};
                         cs_stats := {| total_connections := 1; active_connections := 1;
                                        total_bytes_in := 0; total_bytes_out := 23;
                                        uptime := 0 |} |};
              trace := [] |} in
  let ds := [[71; 69]; [84]] in
  let c := {| cfb_key := sample_digest 32 (sample_encode "secret");
              cfb_reg := sample_iv |} in
  streaming_out sample_streaming c /\
  Forall (fun d => d ≠ [] /\ (length d <= 4096)%nat) ds /\
  exists s' r',
    relay_loop (client_round (L:=sample_libs) cid) (uploads ds) s = (Blocked, s') /\
    concat (sent_on Remote (trace s'))
      = concat (sent_on Remote (trace s)) ++ (cfb_encrypt (L:=sample_libs) c (concat ds)).2 /\
    connections (sink s') !! cid = Some r' /\
    c_bytes_out r' = c_bytes_out r + len (concat ds) /\
    c_bytes_in r' = c_bytes_in r.
Proof.
  intros cid r s ds c.
  assert (Hst : streaming_out sample_streaming c)
    by (split; [reflexivity|]; split; reflexivity).
  assert (Hds : Forall (fun d => d ≠ [] /\ (length d <= 4096)%nat) ds).
  { apply Forall_cons. split; [split; [discriminate | cbn [length]; lia]|].
    apply Forall_cons. split; [split; [discriminate | cbn [length]; lia]|].
    exact (List.Forall_nil _). }
  split; [exact Hst|]. split; [exact Hds|].
  exact (upload_keeps_stream_order (L:=sample_libs) cid ds s sample_streaming c r
           eq_refl Hst (lookup_singleton_eq cid r) Hds).
Defined.

Lemma user_eof_ends_relay_witness :
  let s := {| encryptor := Some sample_streaming; sink := reset 0; trace := [] |} in
  let r := handle_tcp (L:=sample_libs) sample_relay s in
  peername sample_relay = Some ("127.0.0.1", 50000) /\
  outcome_of r.1 = Finished /\
  trace r.2 = [EvRecv Sock 4096; EvClose Sock; EvClose Remote] /\
  encryptor r.2 = Some sample_streaming /\
  sink r.2 = add_connection (reset 0) 1700000000 "140230_1700000000.5" "127.0.0.1" 50000.
Proof.
  intros s r. split; [reflexivity|].
  exact (user_eof_ends_relay (L:=sample_libs) sample_relay s ("127.0.0.1", 50000)
           SendOk None [] eq_refl eq_refl).
Defined.

(** ** The server's handler, besides the claims *)

Section ServerMore.

Context `{L : Libs}.

Local Abbreviation any := (appends (fun _ => True)).

(** X18.  With ['aes-256-cfb'] the server never gets to an origin: its
    first read asks for one byte, which [decrypt] cannot take an IV from, so
    every run ends after that read, with the library's [ValueError] when a
    byte (or an end of stream) came and quietly when the read itself failed;
    no connection is ever dialled. *)
Theorem server_aes_never_dials KEY (env : server_env) cs e :
  Encryptor_init KEY aes_256_cfb (s_rand_iv env) = Ok e ->
  let r := handle KEY aes_256_cfb env (initial cs) in
  trace r.2 = [EvRecv Sock 1] /\
  outcome_of r.1 = match s_rx_addrtype env with
                   | RecvData _ => Died ValueError
                   | RecvErr => Finished
                   end.
Proof.
  intros Hinit r. subst r.
  destruct (s_rx_addrtype env) as [d|] eqn:Hrx.
  - by rewrite (server_handle_first_byte KEY env cs d e Hinit Hrx).
  - unfold handle, try_socket_error.
    rewrite (bind_val _ _ _ tt (set_encryptor e (initial cs)))
      by (unfold init_encryptor; by rewrite Hinit).
    rewrite Hrx. by split.
Qed.

Lemma server_handle_tcp_appends env : steps any (server_handle_tcp env).
Proof.
  unfold server_handle_tcp. apply (steps_finally any).
  - apply (steps_bind any); [apply (steps_getpeername any)|]. intros hp.
    apply (steps_bind any); [by apply (steps_on_sink any)|]. intros _.
    apply (steps_relay_loop any). intros ev. by apply (steps_server_round any).
  - apply (steps_bind any); [by apply (steps_close any)|]. intros _.
    by apply (steps_close any).
Qed.

Lemma translate_app (t a b : bytes) :
  translate t (a ++ b) = translate t a ++ translate t b.
Proof. unfold translate. apply map_app. Qed.

Lemma translate_length (t a : bytes) : length (translate t a) = length a.
Proof. unfold translate. apply length_map. Qed.

(** A table session decrypts without changing. *)
Lemma self_decrypt_table (e : Encryptor) (dt d : bytes) (s : state) :
  encryptor s = Some e ->
  String.eqb (method e) aes_256_cfb = false ->
  decrypt_table e = Some dt ->
  self_decrypt d s = (Val (translate dt d), set_encryptor e s).
Proof.
  intros He Hm Hdt. unfold self_decrypt, with_encryptor, decrypt.
  by rewrite He, Hm, Hdt.
Qed.

(** From the dial on, in the server. *)
Lemma server_dial_trace env addr port (s : state) :
  exists suf,
    trace (bind (try_socket_error (connect addr port (s_dial env)) return_)
             (fun _ => server_handle_tcp (s_relay env)) s).2
    = trace s ++ [EvConnect addr port] ++ suf.
Proof.
  unfold bind at 1, try_socket_error, connect, bind, emit. simpl.
  destruct (s_dial env); simpl.
  - destruct (server_handle_tcp_appends (s_relay env)
                (record_event (EvConnect addr port) s)) as (suf & Hsuf & _).
    exists suf. rewrite Hsuf. simpl. by rewrite <- app_assoc.
  - by exists [].
Qed.

(** The address part of a header that went through the table [T], read
    back by the server through the inverse table. *)
Lemma server_read_addr_run env e (T : bytes) t (s : state) :
  encryptor s = Some e ->
  String.eqb (method e) aes_256_cfb = false ->
  decrypt_table e = Some (maketrans T range256) ->
  T ≡ₚ range256 ->
  match t with
  | TargetIPv4 ip =>
      length ip = 4%nat /\ is_bytes ip /\
      s_rx_addr_ip env = RecvData (translate T ip)
  | TargetDomain n name =>
      is_byte n /\ is_bytes (utf8_encode name) /\
      length (utf8_encode name) = Z.to_nat n /\
      utf8_decode (utf8_encode name) = Some name /\
      s_rx_length env = RecvData (translate T [n]) /\
      s_rx_addr env = RecvData (translate T (utf8_encode name))
  end ->
  server_read_addr (match t with TargetIPv4 _ => 1 | TargetDomain _ _ => 3 end) env s =
  (Val (host_of t),
   {| encryptor := Some e; sink := sink s;
      trace := trace s ++ server_addr_reads t |}).
Proof.
  intros He Hm Hdt Hperm Ht. unfold server_read_addr.
  destruct t as [ip|n name]; simpl.
  - destruct Ht as (Hlen & Hip & Hrx). rewrite Hrx.
    erewrite bind_val by reflexivity.
    rewrite take_ge by (rewrite translate_length, Hlen; simpl; lia).
    erewrite bind_val by (by apply self_decrypt_table).
    rewrite translate_maketrans by done.
    unfold inet_ntoa. rewrite decide_True by done. reflexivity.
  - destruct Ht as (Hn & Hname & Hlen & Hdec & Hrxn & Hrx). rewrite Hrxn, Hrx.
    erewrite bind_val by reflexivity.
    erewrite bind_val by (by apply self_decrypt_table).
    change (take (Z.to_nat 1) (translate T [n])) with (translate T [n]).
    assert (Hbn : is_bytes [n]) by (constructor; [exact Hn | constructor]).
    rewrite translate_maketrans by done.
    erewrite bind_val by reflexivity.
    erewrite bind_val by reflexivity.
    rewrite take_ge by (rewrite translate_length, Hlen; lia).
    erewrite bind_val by (by apply self_decrypt_table).
    rewrite translate_maketrans by done.
    unfold bind, decode. rewrite Hdec. simpl.
    unfold record_event. simpl. by rewrite <- app_assoc.
Qed.

(** X19.  With the table method the two ends agree on the header: when the
    server's reads return, in the slices the handler asks for, what a client
    session of the same password made of the header of a target and port,
    the server decodes that target and port and dials exactly them. *)
Theorem server_dials_table_header KEY meth (env : server_env) cs e_c e_s rand_c
    (t : target) (hi lo : Z) (ct : bytes) :
  meth ≠ aes_256_cfb ->
  Encryptor_init KEY meth rand_c = Ok e_c ->
  Encryptor_init KEY meth (s_rand_iv env) = Ok e_s ->
  is_bytes (header t [hi; lo]) ->
  (encrypt e_c (header t [hi; lo])).2 = Ok ct ->
  reads_header env t ct ->
  exists suf,
    trace (handle KEY meth env (initial cs)).2 =
    [EvRecv Sock 1] ++ server_addr_reads t ++
    [EvRecv Sock 2; EvConnect (host_of t) (hi * 256 + lo)] ++ suf.
Proof.
  intros Hmeth Hc Hs Hbytes Henc Hreads.
  destruct (init_table KEY meth rand_c e_c Hmeth Hc) as (Hmc & Hetc & _).
  destruct (init_table KEY meth _ e_s Hmeth Hs) as (Hms & _ & Hdts).
  pose proof (get_table_perm KEY) as Hperm.
  revert Hperm Hetc Hdts. generalize (_get_table KEY). intros T Hperm Hetc Hdts.
  assert (Hct : ct = translate T (header t [hi; lo])).
  { unfold encrypt in Henc. rewrite Hmc, Hetc in Henc. simpl in Henc.
    by inversion Henc. }
  (* the slices of the ciphertext *)
  assert (Hpieces :
    take 1 ct = translate T [match t with TargetIPv4 _ => 1 | TargetDomain _ _ => 3 end] /\
    s_rx_port env = RecvData (translate T [hi; lo]) /\
    is_bytes [hi; lo] /\
    match t with
    | TargetIPv4 ip =>
        length ip = 4%nat /\ is_bytes ip /\
        s_rx_addr_ip env = RecvData (translate T ip)
    | TargetDomain n name =>
        is_byte n /\ is_bytes (utf8_encode name) /\
        length (utf8_encode name) = Z.to_nat n /\
        utf8_decode (utf8_encode name) = Some name /\
        s_rx_length env = RecvData (translate T [n]) /\
        s_rx_addr env = RecvData (translate T (utf8_encode name))
    end).
  { subst ct. destruct Hreads as [_ Hreads].
    destruct t as [ip|n name]; simpl in *.
    - destruct Hreads as (Hlen & Hip & Hport).
      apply Forall_cons in Hbytes as [_ Hbytes].
      apply Forall_app in Hbytes as [Hbip Hbport].
      rewrite translate_app in Hip, Hport. rewrite drop_0 in Hip.
      rewrite take_app_length' in Hip by (by rewrite translate_length).
      rewrite drop_app_length' in Hport by (by rewrite translate_length).
      by split_and!.
    - destruct Hreads as (Hlen & Hdec & Hrxn & Hrx & Hport).
      apply Forall_cons in Hbytes as [_ Hbytes].
      apply Forall_cons in Hbytes as [Hbn Hbytes].
      apply Forall_app in Hbytes as [Hbname Hbport].
      rewrite translate_app in Hrx, Hport. rewrite drop_0 in Hrx.
      rewrite take_app_length' in Hrx by (by rewrite translate_length).
      rewrite drop_app_length' in Hport by (by rewrite translate_length).
      by split_and!. }
  destruct Hpieces as (Htype & Hport & Hbport & Haddr).
  destruct Hreads as [Hrx1 _]. rewrite Htype in Hrx1.
  unfold handle. unfold try_socket_error at 1.
  rewrite (bind_val _ _ _ tt (set_encryptor e_s (initial cs)))
    by (unfold init_encryptor; by rewrite Hs).
  rewrite Hrx1, Hport.
  erewrite bind_val by reflexivity.
  erewrite bind_val by (by apply self_decrypt_table).
  match goal with
  | |- context [take (Z.to_nat 1) (translate T [?a])] =>
      change (take (Z.to_nat 1) (translate T [a])) with (translate T [a])
  end.
  assert (Hbt : is_bytes [match t with TargetIPv4 _ => 1 | TargetDomain _ _ => 3 end]).
  { constructor; [|constructor]. destruct t; unfold is_byte; lia. }
  rewrite translate_maketrans by done.
  erewrite bind_val by reflexivity.
  erewrite bind_val
    by (apply (server_read_addr_run env e_s T t); (reflexivity || done)).
  erewrite bind_val by reflexivity.
  erewrite bind_val by (by apply self_decrypt_table).
  change (take (Z.to_nat 2) (translate T [hi; lo])) with (translate T [hi; lo]).
  rewrite translate_maketrans by done.
  erewrite bind_val by reflexivity.
  match goal with
  | |- context [bind (try_socket_error (connect ?a ?p _) _) _ ?s] =>
      destruct (server_dial_trace env a p s) as (suf & Hsuf)
  end.
  exists suf.
  match goal with
  | |- trace (let (_, _) := ?m in _).2 = _ =>
      destruct m as [[a|[]| | |] s'] eqn:Hrun
  end; simpl in *; rewrite Hsuf; by rewrite <- !app_assoc.
Qed.

End ServerMore.

Lemma server_aes_never_dials_witness :
  let env := sample_server_env (RecvData [200]) in
  let r := handle (L:=sample_libs) "secret" aes_256_cfb env (initial (reset 0)) in
  trace r.2 = [EvRecv Sock 1] /\ outcome_of r.1 = Died ValueError.
Proof.
  intros env r.
  exact (server_aes_never_dials (L:=sample_libs) "secret" env (reset 0)
           {| key := sample_digest 32 (sample_encode "secret");
              method := aes_256_cfb; iv := Some sample_iv'; iv_sent := false;
              cipher_iv := Some {| cfb_key := sample_digest 32 (sample_encode "secret");
                                   cfb_reg := sample_iv' |};
              decipher := None; encrypt_table := None; decrypt_table := None |}
           eq_refl).
Defined.

Lemma server_dials_table_header_witness :
  let env := sample_server_env (RecvData (take 1 sample_table_ct)) in
  let t := TargetIPv4 [127; 0; 0; 1] in
  "table" ≠ aes_256_cfb /\
  is_bytes (header (L:=sample_libs) t [0; 80]) /\
  reads_header (L:=sample_libs) env t sample_table_ct /\
  exists suf,
    trace (handle (L:=sample_libs) "secret" "table" env (initial (reset 0))).2 =
    [EvRecv Sock 1] ++ server_addr_reads t ++
    [EvRecv Sock 2; EvConnect (host_of t) (0 * 256 + 80)] ++ suf.
Proof.
  intros env t.
  assert (Hm : "table" ≠ aes_256_cfb) by discriminate.
  assert (Hb : is_bytes (header (L:=sample_libs) t [0; 80])).
  { unfold is_bytes, header, t. simpl.
    repeat (apply List.Forall_cons; [unfold is_byte; lia|]).
    apply List.Forall_nil. }
  assert (Hr : reads_header (L:=sample_libs) env t sample_table_ct).
  { split; [reflexivity|]. split; [reflexivity|]. split; reflexivity. }
  split; [exact Hm|]. split; [exact Hb|]. split; [exact Hr|].
  exact (server_dials_table_header (L:=sample_libs) "secret" "table" env (reset 0)
           sample_table_session sample_table_session sample_iv t 0 80
           sample_table_ct Hm eq_refl eq_refl Hb eq_refl Hr).
Defined.

(** ** Snapshots, and the upload leg's check *)

Section SnapshotFacts.

Context `{L : Libs}.

Lemma wf_ids (m : gmap string connection) :
  map_Forall record_wf m -> c_id <$> (map_to_list m).*2 = (map_to_list m).*1.
Proof.
  intros Hwf.
  assert (H : Forall (fun p : string * connection => c_id p.2 = p.1) (map_to_list m)).
  { apply Forall_forall. intros [i r] Hin. apply elem_of_map_to_list in Hin.
    by destruct (Hwf i r Hin). }
  induction H as [|p l Hp _ IH]; [done|].
  cbn [fmap list_fmap] in *. f_equal; [exact Hp | exact IH].
Qed.

(** X20.  A snapshot of a sink that was only used through its methods
    lists every stored record once: no id appears twice in it, it has as
    many entries as ids are stored, its uptime is the time since the last
    reset, and taking it changes neither the records nor the counters. *)
Theorem snapshot_lists_each_id_once (now0 : Z) (calls : list sink_call) (now : Z) :
  let cs := sink_run (reset now0) calls in
  let snap := (get_stats cs now).2 in
  NoDup (c_id <$> snap.2) /\
  length snap.2 = size (connections cs) /\
  uptime snap.1 = now - start_time cs /\
  connections (get_stats cs now).1 = connections cs /\
  total_connections snap.1 = total_connections (cs_stats cs) /\
  active_connections snap.1 = active_connections (cs_stats cs) /\
  total_bytes_in snap.1 = total_bytes_in (cs_stats cs) /\
  total_bytes_out snap.1 = total_bytes_out (cs_stats cs).
Proof.
  intros cs snap. subst snap. simpl. split; [|split].
  - rewrite wf_ids by apply sink_records_well_formed_aux.
    apply NoDup_fst_map_to_list.
  - by rewrite length_fmap, length_map_to_list.
  - done.
Qed.

(** What [encrypt] returns is never shorter than what it was given. *)
Lemma encrypt_not_shorter (e e' : Encryptor) (d out : bytes) :
  encrypt e d = (e', Ok out) -> (length d <= length out)%nat.
Proof.
  unfold encrypt, cipher_iv_encrypt.
  destruct (String.eqb (method e) aes_256_cfb).
  - destruct (negb (iv_sent e)); simpl.
    + destruct (cipher_iv e) as [c|]; simpl.
      * pose proof (cfb_encrypt_length c d) as Hlen.
        destruct (cfb_encrypt c d) as [c' o]. simpl in *.
        destruct (iv e) as [v|]; intros [= _ <-]. rewrite length_app. lia.
      * by destruct (iv e).
    + destruct (cipher_iv e) as [c|]; [|done].
      pose proof (cfb_encrypt_length c d) as Hlen.
      destruct (cfb_encrypt c d) as [c' o]. simpl in *.
      intros [= _ <-]. lia.
  - destruct (encrypt_table e) as [t|]; [|done].
    intros [= _ <-]. unfold translate. by rewrite length_map.
Qed.

(** X21.  On the upload leg the relay's check after [send_all] never
    fires: whatever the session's state and whatever the user's socket
    delivers, a round in which only the user's socket is readable does not
    end with the relay's own exception, because what [encrypt] returns is
    never shorter than the data read. *)
Theorem upload_check_never_fires (cid : string) (l : leg) (s : state) :
  (client_round cid (SelectReady (Some l) None) s).1 ≠ Exc SendFailed.
Proof.
  unfold client_round, bind, recv, self_encrypt, with_encryptor, send_all,
    on_sink, emit, ret, raise, break. simpl.
  destruct (rx l) as [data|]; simpl; [|done].
  destruct (len (take (Z.to_nat 4096) data) <=? 0); simpl; [done|].
  destruct (encryptor s) as [e|]; simpl; [|done].
  destruct (encrypt e (take (Z.to_nat 4096) data)) as [e' [out|x]] eqn:Henc; simpl.
  - destruct (tx l); simpl; [|done].
    apply encrypt_not_shorter in Henc.
    assert (Hge : (len out <? len (take (Z.to_nat 4096) data)) = false).
    { apply Z.ltb_ge. unfold len. lia. }
    rewrite Hge. done.
  - intros [= ->]. revert Henc. unfold encrypt, cipher_iv_encrypt.
    destruct (String.eqb (method e) aes_256_cfb).
    + destruct (negb (iv_sent e)); simpl.
      * destruct (cipher_iv e) as [c|]; simpl.
        -- destruct (cfb_encrypt c (take (Z.to_nat 4096) data)).
           by destruct (iv e).
        -- by destruct (iv e).
      * destruct (cipher_iv e) as [c|]; [|done].
        by destruct (cfb_encrypt c (take (Z.to_nat 4096) data)).
    + by destruct (encrypt_table e).
Qed.

End SnapshotFacts.
